(** * stac-server: ingest transform, query compiler, search, partial update

    A shallow embedding of [libs/es.js], [src/lib/ingest.js] and the ingest
    lambda's record normaliser, with the properties of the specification
    stated and proved over it.

    Conventions.
    - JavaScript numbers that the code uses as counters (page, limit, hit
      counts) are integers [Z]; the code's arithmetic on them is that of
      doubles, [js_add], [js_sub] and [js_mul], which round a result of
      more than 53 significant bits.
    - A JavaScript object used as a mapping is an association list in
      property-enumeration order ([Object.keys] order); a well-formed
      object has pairwise distinct keys, which theorems assume as
      [NoDup (keys o)] where they depend on it.
    - Code that throws, or an [async] function that rejects, returns
      [Throw e]; normal completion is [Ok v]. *)

From Stdlib Require Import ZArith String Ascii List.
From stdpp Require Import gmap strings list pretty.

Set Warnings "-register-all".

Local Open Scope string_scope.
Local Open Scope Z_scope.

(** ** Outcomes *)

Inductive error :=
| TypeError (msg : string)
| Error (msg : string)
| External (msg : string).

Inductive result (A : Type) :=
| Ok (a : A)
| Throw (e : error).
Arguments Ok {A} a.
Arguments Throw {A} e.

Definition bind {A B} (r : result A) (k : A → result B) : result B :=
  match r with
  | Ok a => k a
  | Throw e => Throw e
  end.

Notation "'let?' x ':=' r 'in' k" := (bind r (fun x => k))
  (at level 10, x name, r at level 100, k at level 200).

(** A promise, as returned by the engine client's methods: an object that
    holds how the call settles.  [await] takes the settlement; the object
    itself, like every object, is truthy. *)
Inductive promise (A : Type) := Promise (settled : result A).
Arguments Promise {A} settled.

Definition await {A} (p : promise A) : result A :=
  match p with Promise r => r end.

Definition promise_truthy {A} (p : promise A) : bool := true.

(** ** Values built by the pure functions (no identity, no mutation seen
    from outside): trees. *)

Inductive value :=
| Undefined
| Null
| Bool (b : bool)
| Num (n : Z)
| Str (s : string)
| Arr (xs : list value)
| Obj (fields : list (string * value)).

Definition dict (A : Type) := list (string * A).
Definition obj := dict value.

Definition keys {A} (o : dict A) : list string := map fst o.

Fixpoint get {A} (o : dict A) (k : string) : option A :=
  match o with
  | [] => None
  | (k', v) :: o' => if String.eqb k k' then Some v else get o' k
  end.

(** [o[k] = v]: an existing key keeps its place, a new one goes last. *)
Fixpoint put {A} (o : dict A) (k : string) (v : A) : dict A :=
  match o with
  | [] => [(k, v)]
  | (k', v') :: o' => if String.eqb k k' then (k, v) :: o' else (k', v') :: put o' k v
  end.

(** [Object.assign(target, ...sources)] on mappings. *)
Definition assign {A} (target : dict A) (sources : list (dict A)) : dict A :=
  fold_left (fun t source => fold_left (fun t' kv => put t' (fst kv) (snd kv)) source t)
            sources target.

(** [o[k]] read as a value: a missing property reads [undefined]. *)
Definition prop (o : obj) (k : string) : value := default Undefined (get o k).

(** [Array.prototype.includes] on an array of strings. *)
Definition includes (xs : list string) (x : string) : bool :=
  existsb (String.eqb x) xs.

(** ToBoolean. *)
Definition truthy (v : value) : bool :=
  match v with
  | Undefined | Null => false
  | Bool b => b
  | Num n => negb (Z.eqb n 0)
  | Str s => negb (String.eqb s "")
  | Arr _ | Obj _ => true
  end.

(** ** Numbers

    An integer is held in a double exactly when it has at most 53
    significant bits.  [round53] is the double nearest to an integer
    (ties to the even significand), for results that stay finite; every
    integer up to 2^53 in magnitude is its own double. *)
Definition two53 : Z := 2 ^ 53.

Definition round53 (z : Z) : Z :=
  let a := Z.abs z in
  if a <=? two53 then z
  else
    let e := Z.log2 a - 52 in
    let q := a / 2 ^ e in
    let r := a mod 2 ^ e in
    let half := 2 ^ (e - 1) in
    let q := if (half <? r) || ((r =? half) && Z.odd q) then q + 1 else q in
    Z.sgn z * (q * 2 ^ e).

Definition js_add (a b : Z) : Z := round53 (a + b).
Definition js_sub (a b : Z) : Z := round53 (a - b).
Definition js_mul (a b : Z) : Z := round53 (a * b).

(** [s.split(sep)] for a one-character separator. *)
Fixpoint split (sep : ascii) (s : string) : list string :=
  match s with
  | EmptyString => [EmptyString]
  | String c rest =>
      if Ascii.eqb c sep then EmptyString :: split sep rest
      else match split sep rest with
           | [] => [String c EmptyString]
           | hd :: tl => String c hd :: tl
           end
  end.

(** ** The query compiler ([libs/es.js]) *)

Record SortRule := { field : string; direction : value }.

Record Fields := { include : option (list string); exclude : option (list string) }.

(** The request [parameters].  A [None] is an absent key; payloads the
    compiler only passes through are values.  [fields] distinguishes the
    key being absent ([None]), present but falsy ([Some None]) and an
    include/exclude object. *)
Record Parameters := {
  query : option (dict obj);
  intersects : option value;
  collections : option value;
  datetime : option string;
  ids : option value;
  id : option value;
  sortby : option (list SortRule);
  fields : option (option Fields)
}.

Definition present (o : option value) : bool :=
  match o with Some v => truthy v | None => false end.

Definition comparisons : list string := ["gt"; "lt"; "gte"; "lte"].

Definition buildRangeQuery (property : string) (operators : list string)
    (operatorsObject : obj) : option value :=
  if includes operators "gt" || includes operators "lt" ||
     includes operators "gte" || includes operators "lte" then
    let propertyKey := "properties." +:+ property in
    (* All operators for a property go in a single range query. *)
    let bounds :=
      fold_left (fun exisiting comparison =>
                   if includes operators comparison
                   then assign [] [exisiting; [(comparison, prop operatorsObject comparison)]]
                   else exisiting)
                comparisons [] in
    Some (Obj [("range", Obj [(propertyKey, Obj bounds)])])
  else None.

Definition buildDatetimeQuery (parameters : Parameters) : option value :=
  match datetime parameters with
  | Some datetime =>
      if truthy (Str datetime) then
        let dataRange := split "/" datetime in
        if Nat.eqb (length dataRange) 2 then
          Some (Obj [("range",
                      Obj [("properties.datetime",
                            Obj [("gte", Str (nth 0 dataRange ""));
                                 ("lte", Str (nth 1 dataRange ""))])])])
        else
          Some (Obj [("term", Obj [("properties.datetime", Str datetime)])])
      else None
  | None => None
  end.

Definition push {A} (xs : list A) (x : A) : list A := (xs ++ [x])%list.

Definition push_if {A} (xs : list A) (x : option A) : list A :=
  match x with Some v => push xs v | None => xs end.

(** The callback of the [reduce] over [Object.keys(query)]. *)
Definition queryReducer (query : dict obj) (accumulator : list value)
    (property : string) : list value :=
  match get query property with
  | None => accumulator
  | Some operatorsObject =>
      let operators := keys operatorsObject in
      let accumulator :=
        if includes operators "eq" then
          push accumulator
               (Obj [("term", Obj [("properties." +:+ property, prop operatorsObject "eq")])])
        else if includes operators "in" then
          push accumulator
               (Obj [("terms", Obj [("properties." +:+ property, prop operatorsObject "in")])])
        else accumulator in
      push_if accumulator (buildRangeQuery property operators operatorsObject)
  end.

Definition queryClauses (query : dict obj) : list value :=
  fold_left (queryReducer query) (keys query) [].

Definition buildQuery (parameters : Parameters) : value :=
  let must := match query parameters with
              | Some query => queryClauses query
              | None => []
              end in
  let must := if present (collections parameters)
              then push must (Obj [("terms",
                                    Obj [("collection", default Undefined (collections parameters))])])
              else must in
  let must := if present (intersects parameters)
              then push must (Obj [("geo_shape",
                                    Obj [("geometry",
                                          Obj [("shape", default Undefined (intersects parameters))])])])
              else must in
  let must := push_if must (buildDatetimeQuery parameters) in
  let filter := Obj [("bool", Obj [("must", Arr must)])] in
  let queryBody := Obj [("constant_score", Obj [("filter", filter)])] in
  Obj [("query", queryBody)].

Definition buildIdQuery (id : value) : value :=
  Obj [("query", Obj [("constant_score", Obj [("filter", Obj [("term", Obj [("id", id)])])])])].

Definition buildIdsQuery (ids : value) : value :=
  Obj [("query", Obj [("ids", Obj [("values", ids)])])].

Definition buildSort (parameters : Parameters) : list value :=
  match sortby parameters with
  | Some ((_ :: _) as sortby) =>
      map (fun sortRule => Obj [(field sortRule, Obj [("order", direction sortRule)])]) sortby
  | _ =>
      (* Default item sorting *)
      [Obj [("properties.datetime", Obj [("order", Str "desc")])]]
  end.

Definition nonempty {A} (o : option (list A)) : bool :=
  match o with Some (_ :: _) => true | _ => false end.

Definition buildFieldsFilter (parameters : Parameters) : list string * list string :=
  let _sourceIncludes :=
    match fields parameters with
    | Some _ => ["id"; "type"; "geometry"; "bbox"; "links"; "assets"; "collection";
                 "properties.datetime"]
    | None => []
    end in
  match fields parameters with
  | Some (Some fields) =>
      let _sourceIncludes :=
        if nonempty (include fields) then
          fold_left (fun acc field => if includes acc field then acc else push acc field)
                    (default [] (include fields)) _sourceIncludes
        else _sourceIncludes in
      if nonempty (exclude fields) then
        let exclude := default [] (exclude fields) in
        (List.filter (fun field => negb (includes exclude field)) _sourceIncludes, exclude)
      else (_sourceIncludes, [])
  | _ => (_sourceIncludes, [])
  end.

(** ** Records that live in the store (the ingest transform and the partial
    update work on objects their callers hold, so identity matters). *)

Definition loc := positive.

Inductive val :=
| VUndefined
| VNull
| VBool (b : bool)
| VNum (n : Z)
| VStr (s : string)
| VRef (l : loc).

(** A plain object, or an array with its elements and any named
    (non-index) properties. *)
Inductive cell :=
| CObj (props : dict val)
| CArr (elems : list val) (props : dict val).

Abbreviation heap := (gmap loc cell).

Definition alloc (h : heap) (c : cell) : loc * heap :=
  let l := fresh (dom h) in (l, <[l := c]> h).

Definition truthy_val (v : val) : bool :=
  match v with
  | VUndefined | VNull => false
  | VBool b => b
  | VNum n => negb (Z.eqb n 0)
  | VStr s => negb (String.eqb s "")
  | VRef _ => true
  end.

(** Named own properties of the object a value refers to. *)
Definition props_of (h : heap) (v : val) : option (dict val) :=
  match v with
  | VRef l => match h !! l with
              | Some (CObj ps) => Some ps
              | Some (CArr _ ps) => Some ps
              | None => None
              end
  | _ => None
  end.

(** Own enumerable properties in enumeration order: array indices first. *)
Definition own_enumerable (h : heap) (v : val) : dict val :=
  match v with
  | VRef l => match h !! l with
              | Some (CObj ps) => ps
              | Some (CArr es ps) => (imap (fun i x => (pretty i, x)) es ++ ps)%list
              | None => []
              end
  | _ => []
  end.

(** [v.name] for a name that is neither an array index, [length], nor
    defined on a built-in prototype: reading from [undefined] or [null]
    throws, from a primitive yields [undefined]. *)
Definition read (h : heap) (v : val) (name : string) : result val :=
  match v with
  | VUndefined | VNull =>
      Throw (TypeError ("Cannot read property '" +:+ name +:+ "' of undefined or null"))
  | _ => Ok (default VUndefined (mbind (fun ps => get ps name) (props_of h v)))
  end.

(** [v.name = x] in strict mode. *)
Definition write (h : heap) (v : val) (name : string) (x : val) : result heap :=
  match v with
  | VUndefined | VNull =>
      Throw (TypeError ("Cannot set property '" +:+ name +:+ "' of undefined or null"))
  | VRef l => match h !! l with
              | Some (CObj ps) => Ok (<[l := CObj (put ps name x)]> h)
              | Some (CArr es ps) => Ok (<[l := CArr es (put ps name x)]> h)
              | None => Ok h
              end
  | _ => Throw (TypeError ("Cannot create property '" +:+ name +:+ "' on a primitive"))
  end.

(** [Object.assign(target, source)]: the target object is updated in
    place; a primitive target is wrapped and the wrapper discarded. *)
Definition object_assign (h : heap) (target source : val) : result heap :=
  match target with
  | VUndefined | VNull => Throw (TypeError "Cannot convert undefined or null to object")
  | VRef l => match h !! l with
              | Some (CObj ps) => Ok (<[l := CObj (assign ps [own_enumerable h source])]> h)
              | Some (CArr es ps) => Ok (<[l := CArr es (assign ps [own_enumerable h source])]> h)
              | None => Ok h
              end
  | _ => Ok h
  end.

(** [v.hasOwnProperty(name)] for a name that is not an array index.  An
    own property called [hasOwnProperty] shadows the method; no stored
    value is callable. *)
Definition hasOwnProperty (h : heap) (v : val) (name : string) : result bool :=
  match v with
  | VUndefined | VNull =>
      Throw (TypeError "Cannot read property 'hasOwnProperty' of undefined or null")
  | _ => match props_of h v with
         | Some ps =>
             if includes (keys ps) "hasOwnProperty"
             then Throw (TypeError "data.hasOwnProperty is not a function")
             else Ok (includes (keys ps) name)
         | None => Ok false
         end
  end.

(** ** The engine client

    [indices] is the client's namespace object, a mapping from member
    names to methods: a name it does not define reads [undefined], and
    calling that throws.  A method returns a promise.  The update call
    serialises its document from the store. *)

Record SearchParams := {
  sp_index : string;
  sp_body : value;
  sp_size : Z;
  sp_from : Z;
  sp__sourceExcludes : option (list string);
  sp__sourceIncludes : option (list string)
}.

Record EsResponse := {
  hits_hits : list obj;
  hits_total : Z
}.

Record UpdateRequest := {
  u_index : string;
  u_id : val;
  u_type : string;
  u__source : bool;
  u_body_doc : val
}.

Record Client := {
  indices : dict (value → promise value);
  client_search : SearchParams → promise EsResponse;
  client_update : UpdateRequest → heap → promise value
}.

(** [esClient()] yields [undefined] when no connection could be made. *)
Definition the_client (client : option Client) (member : string) : result Client :=
  match client with
  | Some c => Ok c
  | None => Throw (TypeError ("Cannot read property '" +:+ member +:+ "' of undefined"))
  end.

(** [client.indices.name(arg)], not awaited. *)
Definition indices_call (c : Client) (name : string) (arg : value) : result (promise value) :=
  match get (indices c) name with
  | Some method => Ok (method arg)
  | None => Throw (TypeError ("client.indices." +:+ name +:+ " is not a function"))
  end.

Record Env := {
  env_COLLECTIONS_INDEX : option string;
  env_ITEMS_INDEX : option string
}.

Definition or_default (v : option string) (d : string) : string :=
  match v with
  | Some s => if String.eqb s "" then d else s
  | None => d
  end.

Definition COLLECTIONS_INDEX (env : Env) : string :=
  or_default (env_COLLECTIONS_INDEX env) "collections".

Definition ITEMS_INDEX (env : Env) : string :=
  or_default (env_ITEMS_INDEX env) "items".

Inductive logentry :=
| LogInfo (msg : string)
| LogDebug (msg : string)
| LogDebugValue (msg : string) (v : value)
| LogDebugError (msg : string) (e : error)
| LogError (msg : string) (e : error).

(** ** Index lifecycle.  The two mappings come from fixture files and are
    parameters. *)

Definition create_index (env : Env) (collections_mapping items_mapping : value)
    (esClient : option Client) (index : string) : result unit * list logentry :=
  match
    (let? client := the_client esClient "indices" in
     let? probe := indices_call client "exits" (Obj [("index", Str index)]) in
     let? exists_ := await probe in
     Ok (client, exists_))
  with
  | Throw e => (Throw e, [])
  | Ok (client, exists_) =>
      let mapping := if String.eqb index "collections"
                     then collections_mapping else items_mapping in
      if negb (truthy exists_) then
        match
          (let? created := indices_call client "create"
                             (Obj [("index", Str (COLLECTIONS_INDEX env)); ("body", mapping)]) in
           await created)
        with
        | Ok _ => (Ok tt, [LogInfo ("Created index " +:+ index);
                           LogDebugValue "Mapping: " mapping])
        | Throw error =>
            (Ok tt, [LogDebugError ("Error creating index " +:+ index +:+ ", already created: ")
                                   error])
        end
      else (Ok tt, [])
  end.

(** ** The ingest transform [toEs] of [_stream] *)

Record EsRecord := {
  r_index : string;
  r_type : string;
  r_id : val;
  r_action : string;
  r__retry_on_conflict : Z;
  r_body_doc : val;
  r_body_doc_as_upsert : bool
}.

(** What the transform callback does with a chunk: [next()], or
    [next(null, record)], or an exception. *)
Inductive transformed :=
| Skipped
| Pushed (record : EsRecord)
| Thrown (e : error).

Definition hlinks : list string := ["self"; "root"; "parent"; "child"; "collection"; "item"].

(** [hlinks.includes(x)]: only a string can equal a member. *)
Definition hlinks_includes (x : val) : bool :=
  match x with
  | VStr s => includes hlinks s
  | _ => false
  end.

(** [links.filter((link) => !hlinks.includes(link.rel))] on the elements. *)
Fixpoint filter_links (h : heap) (links : list val) : result (list val) :=
  match links with
  | [] => Ok []
  | link :: rest =>
      let? rel := read h link "rel" in
      let? kept := filter_links h rest in
      Ok (if negb (hlinks_includes rel) then link :: kept else kept)
  end.

(** [data.links.filter(...)]: [filter] exists on arrays only. *)
Definition data_links_filter (h : heap) (data : val) : result (list val) :=
  let? links := read h data "links" in
  match links with
  | VRef l => match h !! l with
              | Some (CArr elems _) => filter_links h elems
              | _ => Throw (TypeError "data.links.filter is not a function")
              end
  | VUndefined | VNull => Throw (TypeError "Cannot read property 'filter' of undefined or null")
  | _ => Throw (TypeError "data.links.filter is not a function")
  end.

(** The routing decision at the head of the callback: [Some index], or
    [None] for a chunk that is passed over. *)
Definition route (env : Env) (client : option Client) (h : heap) (data : val)
    : result (option string) :=
  let? is_collection := if truthy_val data then hasOwnProperty h data "extent" else Ok false in
  if is_collection then Ok (Some (COLLECTIONS_INDEX env))
  else
    let? is_item := if truthy_val data then hasOwnProperty h data "geometry" else Ok false in
    if is_item then
      let index := ITEMS_INDEX env in
      let? c := the_client client "indices" in
      let? found := indices_call c "exists" (Str index) in
      if negb (promise_truthy found)
      then Throw (Error ("Collection " +:+ index +:+ " does not exist, add before ingesting items"))
      else Ok (Some index)
    else Ok None.

(** [Object.assign({}, ...sources)] copies with [target[k] = v].  On the
    fresh target every name creates or updates an own property, except
    [__proto__]: while the target has no own property of that name and
    the accessor of [Object.prototype] is still reached through its
    prototype chain, assigning an object or [null] replaces the target's
    prototype, and assigning anything else does nothing.  The target is
    its prototype ([None]: still [Object.prototype]) and its own
    properties; the objects of the store have the prototype they were
    created with. *)
Definition set_on_fresh (h : heap) (target : option val * dict val) (k : string) (v : val)
    : option val * dict val :=
  let (proto, ps) := target in
  if negb (String.eqb k "__proto__") then (proto, put ps k v)
  else if includes (keys ps) k then (proto, put ps k v)
  else
    let accessor :=
      match proto with
      | None => true
      | Some (VRef l) => negb (includes (keys (default [] (props_of h (VRef l)))) k)
      | Some _ => false
      end in
    if accessor
    then match v with
         | VRef _ | VNull => (Some v, ps)
         | _ => (proto, ps)
         end
    else (proto, put ps k v).

Definition assign_fresh (h : heap) (sources : list (dict val)) : option val * dict val :=
  fold_left (fun t source => fold_left (fun t' kv => set_on_fresh h t' (fst kv) (snd kv)) source t)
            sources (None, []).

(** [built.name] on the object [Object.assign] built, for a name that no
    built-in prototype defines: an own property, else the own property of
    the prototype it was given, else [undefined]. *)
Definition read_built (h : heap) (built : option val * dict val) (name : string) : val :=
  match get built.2 name with
  | Some v => v
  | None =>
      match built.1 with
      | Some (VRef l) => default VUndefined (mbind (fun ps => get ps name) (props_of h (VRef l)))
      | _ => VUndefined
      end
  end.

(** The document is stored with its own properties, which are what the
    sink serialises; the prototype the copy may have given it is read
    through once, by [esDataObject.id]. *)
Definition toEs (env : Env) (client : option Client) (h : heap) (data : val)
    : heap * transformed :=
  match route env client h data with
  | Throw e => (h, Thrown e)
  | Ok None => (h, Skipped)
  | Ok (Some index) =>
      (* remove any hierarchy links in a non-mutating way *)
      match data_links_filter h data with
      | Throw e => (h, Thrown e)
      | Ok kept =>
          let (links, h1) := alloc h (CArr kept []) in
          let built := assign_fresh h1 [own_enumerable h1 data; [("links", VRef links)]] in
          let (esDataObject, h2) := alloc h1 (CObj built.2) in
          (h2, Pushed {| r_index := index;
                         r_type := "doc";
                         r_id := read_built h2 built "id";
                         r_action := "update";
                         r__retry_on_conflict := 3;
                         r_body_doc := VRef esDataObject;
                         r_body_doc_as_upsert := true |})
      end
  end.

(** ** Partial update.  [now] is what [new Date().toISOString()] returns. *)

Definition editPartialItem (env : Env) (esClient : option Client) (now : string)
    (h : heap) (itemId : val) (updateFields : val) : heap * result value :=
  (* Handle inserting required default properties to updateFields *)
  let (requiredProperties, h1) := alloc h (CObj [("updated", VStr now)]) in
  match
    (let? properties := read h1 updateFields "properties" in
     if truthy_val properties
     then object_assign h1 properties (VRef requiredProperties)
     else write h1 updateFields "properties" (VRef requiredProperties))
  with
  | Throw e => (h1, Throw e)
  | Ok h2 =>
      (h2, let? client := the_client esClient "update" in
           await (client_update client
                    {| u_index := ITEMS_INDEX env;
                       u_id := itemId;
                       u_type := "doc";
                       u__source := true;
                       u_body_doc := updateFields |} h2))
  end.

(** ** Search *)

Record Context := {
  page : Z;
  limit : Z;
  matched : Z;
  returned : Z
}.

Record SearchResponse := {
  results : list value;
  context : Context;
  links : list value
}.

Definition searchBody (parameters : Parameters) : value :=
  let body :=
    if present (ids parameters) then buildIdsQuery (default Undefined (ids parameters))
    else if present (id parameters) then buildIdQuery (default Undefined (id parameters))
    else buildQuery parameters in
  match body with
  | Obj fs => Obj (put fs "sort" (Arr (buildSort parameters)))
  | _ => body
  end.

Definition searchParams (parameters : Parameters) (index : string) (page limit : Z)
    : SearchParams :=
  let (_sourceIncludes, _sourceExcludes) := buildFieldsFilter parameters in
  {| sp_index := index;
     sp_body := searchBody parameters;
     sp_size := limit;
     sp_from := js_mul (js_sub page 1) limit;
     sp__sourceExcludes :=
       if Nat.ltb 0 (length _sourceExcludes) then Some _sourceExcludes else None;
     sp__sourceIncludes :=
       if Nat.ltb 0 (length _sourceIncludes) then Some _sourceIncludes else None |}.

Definition searchResponse (page limit : Z) (esResponse : EsResponse) : SearchResponse :=
  let results := map (fun r => prop r "_source") (hits_hits esResponse) in
  let nextlink := if Z.ltb (js_mul page limit) (hits_total esResponse)
                  then Num (js_add page 1) else Null in
  {| results := results;
     context := {| page := page;
                   limit := limit;
                   matched := hits_total esResponse;
                   returned := Z.of_nat (length results) |};
     links := if truthy nextlink
              then [Obj [("title", Str "next");
                         ("type", Str "application/json");
                         ("href", nextlink)]]
              else [] |}.

Definition search (esClient : option Client) (parameters : Parameters)
    (index : option string) (page limit : option Z) : result SearchResponse :=
  let index := default "*" index in
  let page := default 1 page in
  let limit := default 10 limit in
  let searchParams := searchParams parameters index page limit in
  let? client := the_client esClient "search" in
  let? esResponse := await (client_search client searchParams) in
  Ok (searchResponse page limit esResponse).

(** ** The record normaliser of the ingest lambda *)

(** ToString. *)
Fixpoint to_string (v : value) : string :=
  match v with
  | Undefined => "undefined"
  | Null => "null"
  | Bool b => if b then "true" else "false"
  | Num n => pretty n
  | Str s => s
  | Arr xs =>
      (fix join (xs : list value) : string :=
         match xs with
         | [] => ""
         | x :: rest =>
             let head := match x with Undefined | Null => "" | _ => to_string x end in
             match rest with
             | [] => head
             | _ => head +:+ "," +:+ join rest
             end
         end) xs
  | Obj _ => "[object Object]"
  end.

(** [v.name] on a tree value, for a name no built-in prototype defines. *)
Definition dot (v : value) (name : string) : result value :=
  match v with
  | Undefined | Null =>
      Throw (TypeError ("Cannot read property '" +:+ name +:+ "' of undefined or null"))
  | Obj fs => Ok (prop fs name)
  | _ => Ok Undefined
  end.

(** [name in v], for a name that is not an array index. *)
Definition has_in (name : string) (v : value) : result bool :=
  match v with
  | Obj fs => Ok (includes (keys fs) name)
  | Arr _ => Ok false
  | _ => Throw (TypeError ("Cannot use 'in' operator to search for '" +:+ name +:+ "'"))
  end.

(** [s.replace(/^\//, '')]. *)
Definition strip_leading_slash (s : string) : string :=
  match s with
  | String "/" rest => rest
  | _ => s
  end.

(** [===] against a string literal. *)
Definition is_str (v : value) (s : string) : bool :=
  match v with
  | Str s' => String.eqb s' s
  | _ => false
  end.

Record URL := {
  protocol : string;
  hostname : string;
  pathname : string
}.

Fixpoint sequence {A} (rs : list (result A)) : result (list A) :=
  match rs with
  | [] => Ok []
  | r :: rest =>
      let? a := r in
      let? tail := sequence rest in
      Ok (a :: tail)
  end.

(** The rejections among a list of settled promises, in list order. *)
Definition rejections {A} (rs : list (result A)) : list error :=
  omap (fun r => match r with Throw e => Some e | Ok _ => None end) rs.

(** [Promise.all]: every value, in order, when no promise rejects;
    otherwise the rejection that settles first.  Which one that is
    depends on timing: [settles_first] picks it among the rejections, by
    position. *)
Definition promise_all {A} (settles_first : list error → nat) (rs : list (result A))
    : result (list A) :=
  match rejections rs with
  | [] => sequence rs
  | e :: es => Throw (nth (settles_first (e :: es)) (e :: es) e)
  end.

Section Normalizer.
(** The platform and the helper modules the lambda imports: the URL
    parser, the object-storage reader, the HTTP client, the JSON parser,
    the order in which concurrent rejections settle, the index bootstrap
    and the ingest call with its stream bound. *)
Context (new_URL : string → result URL)
        (getObjectJson : string → string → result value)
        (got_get_json : value → result value)
        (JSON_parse : string → result value)
        (settles_first : list error → nat)
        (createIndex : string → result unit)
        (ingestItems_stream : list value → result bool).

Definition isSqsEvent (event : value) : result bool := has_in "Records" event.

Definition isSnsMessage (record : value) : result bool :=
  let? type := dot record "Type" in
  Ok (is_str type "Notification").

Definition stacItemFromSnsMessage (message : value) : result value :=
  let? by_reference := has_in "href" message in
  if by_reference then
    let? href := dot message "href" in
    let? url := new_URL (to_string href) in
    if String.eqb (protocol url) "s3:" then
      getObjectJson (hostname url) (strip_leading_slash (pathname url))
    else if String.prefix "http" (protocol url) then
      got_get_json href
    else
      Throw (Error ("Unsupported source: " +:+ to_string href))
  else Ok message.

Definition stacItemFromRecord (record : value) : result value :=
  let? body := dot record "body" in
  let? recordBody := JSON_parse (to_string body) in
  let? sns := isSnsMessage recordBody in
  if sns then
    let? message := dot recordBody "Message" in
    let? parsed := JSON_parse (to_string message) in
    stacItemFromSnsMessage parsed
  else Ok recordBody.

(** [Promise.all] over the mapped records: every record or a rejection. *)
Definition stacItemsFromSqsEvent (event : value) : result (list value) :=
  let? records := dot event "Records" in
  match records with
  | Arr rs => promise_all settles_first (map stacItemFromRecord rs)
  | Undefined | Null => Throw (TypeError "Cannot read property 'map' of undefined or null")
  | _ => Throw (TypeError "records.map is not a function")
  end.

Definition handler (event : value) : result unit :=
  let? create_indices := dot event "create_indices" in
  let? _ := (if truthy create_indices then createIndex "collections" else Ok tt) in
  let? sqs := isSqsEvent event in
  let? stacItems := (if sqs then stacItemsFromSqsEvent event else Ok [event]) in
  let? _ := ingestItems_stream stacItems in
  Ok tt.
End Normalizer.

(** ** [ingestItem] and [ingestItems] ([src/lib/ingest.js]) *)

(** How the returned promise ends: settled, never settled, or the pump
    callback itself throwing. *)
Inductive settlement (A : Type) :=
| Resolved (a : A)
| Rejected (e : error)
| Pending
| Uncaught (e : error).
Arguments Resolved {A} a.
Arguments Rejected {A} e.
Arguments Pending {A}.
Arguments Uncaught {A} e.

Record StreamPair (Stage : Type) := {
  toDB : option Stage;
  dbStream : option Stage
}.
Arguments toDB {Stage} _.
Arguments dbStream {Stage} _.

(** What is pushed into the readable; [Null] is the end-of-stream signal. *)
Definition pushed_by_ingestItem (item : value) : list value :=
  push (push [] item) Null.

Definition pushed_by_ingestItems (items : list value) : list value :=
  push (fold_left (fun pushed item => push pushed item) items []) Null.

Section Ingest.
Context {Stage : Type}.
(** [pump(readable, toDB, dbStream, callback)] together with the chunks
    pushed into [readable]: it throws at once, or never calls back
    ([Ok None]), or calls back with an error or without one. *)
Context (pump : option Stage → option Stage → list value → result (option (option error))).
(** [await stream()]: a rejection, or the object that is destructured. *)
Context (stream : unit → result (option (StreamPair Stage))).

Definition piped (pushed : list value) : result (option (option error)) :=
  let? streams := stream tt in
  match streams with
  | None => Throw (TypeError "Cannot destructure property 'toDB' of undefined or null")
  | Some s => pump (toDB s) (dbStream s) pushed
  end.

Definition ingestItem (item : value) : settlement bool * list logentry :=
  match piped (pushed_by_ingestItem item) with
  | Throw e => (Rejected e, [])
  | Ok None => (Pending, [])
  | Ok (Some (Some error)) => (Rejected error, [LogError "Error ingesting" error])
  | Ok (Some None) =>
      match dot item "id" with
      | Throw e => (Uncaught e, [])
      | Ok id => (Resolved true, [LogInfo ("Ingested item " +:+ to_string id)])
      end
  end.

Definition ingestItems (items : list value) : settlement bool * list logentry :=
  match piped (pushed_by_ingestItems items) with
  | Throw e => (Rejected e, [])
  | Ok None => (Pending, [])
  | Ok (Some (Some error)) => (Rejected error, [LogError "Error ingesting" error])
  | Ok (Some None) => (Resolved true, [LogDebug "Ingested item"])
  end.
End Ingest.

(** ** Connecting ([connect], [esClient]) *)

Record ClientConfig := {
  node : string;
  aws_connection : bool
}.

Section Connection.
Context {C : Type}.
(** The client constructor (with the AWS connector when asked for), the
    credentials wrapper and the health probe [client.cat.health()]. *)
Context (new_Client : ClientConfig → result C)
        (awsCredsifyAll : C → result C)
        (cat_health : C → result value).

Definition connect (ES_HOST : option string) : result C * list logentry :=
  match
    (let? client :=
       (* use local client *)
       (match ES_HOST with
        | Some host =>
            if String.eqb host "" then
              new_Client {| node := "localhost:9200"; aws_connection := false |}
            else
              let? plain := new_Client {| node := "https://" +:+ host;
                                          aws_connection := true |} in
              awsCredsifyAll plain
        | None => new_Client {| node := "localhost:9200"; aws_connection := false |}
        end) in
     let? health := cat_health client in
     Ok (client, health))
  with
  | Ok (client, health) => (Ok client, [LogDebugValue "Health: " health])
  | Throw e => (Throw e, [])
  end.

(** [esClient()] on the module variable [_esClient]: the new value of the
    variable, which is also what the call returns, and the log. *)
Definition esClient (connect : unit → result C * list logentry) (_esClient : option C)
    : option C * list logentry :=
  match _esClient with
  | None =>
      match connect tt with
      | (Ok client, log) => (Some client, (log ++ [LogDebug "Connected to Elasticsearch"])%list)
      | (Throw error, log) => (None, (log ++ [LogError "" error])%list)
      end
  | Some client => (Some client, [LogDebug "Using existing Elasticsearch connection"])
  end.
End Connection.

(** ** Vocabulary of the statements *)

(** Number of separators in a string. *)
Fixpoint count_sep (sep : ascii) (s : string) : nat :=
  match s with
  | EmptyString => 0
  | String c rest => (if Ascii.eqb c sep then 1 else 0) + count_sep sep rest
  end%nat.

(** [v.a.b.c] on a tree value, [undefined] where the path leaves it. *)
Fixpoint path (v : value) (names : list string) : value :=
  match names with
  | [] => v
  | name :: names' =>
      match v with
      | Obj fs => path (prop fs name) names'
      | _ => Undefined
      end
  end.

(** The conjunctive clause list of a compiled query document. *)
Definition must_of (compiled : value) : list value :=
  match path compiled ["query"; "constant_score"; "filter"; "bool"; "must"] with
  | Arr clauses => clauses
  | _ => []
  end.

(** The bounds of [clause] when it is a range clause on [key]. *)
Definition range_on (key : string) (clause : value) : option obj :=
  match clause with
  | Obj [(kind, Obj [(k, Obj bounds)])] =>
      if String.eqb kind "range" && String.eqb k key then Some bounds else None
  | _ => None
  end.

(** The range bounds a filter entry supplies: each of gt, lt, gte, lte
    that the operators object has, with its operand. *)
Definition supplied_bounds (operatorsObject : obj) : obj :=
  omap (fun comparison => pair comparison <$> get operatorsObject comparison) comparisons.

Definition has_range_operator (operatorsObject : obj) : Prop :=
  ∃ comparison, comparison ∈ comparisons ∧ comparison ∈ keys operatorsObject.

Definition no_parameters : Parameters :=
  {| query := None; intersects := None; collections := None; datetime := None;
     ids := None; id := None; sortby := None; fields := None |}.

Definition with_datetime (parameters : Parameters) (d : string) : Parameters :=
  {| query := query parameters; intersects := intersects parameters;
     collections := collections parameters; datetime := Some d;
     ids := ids parameters; id := id parameters; sortby := sortby parameters;
     fields := fields parameters |}.

Definition with_query (parameters : Parameters) (q : dict obj) : Parameters :=
  {| query := Some q; intersects := intersects parameters;
     collections := collections parameters; datetime := datetime parameters;
     ids := ids parameters; id := id parameters; sortby := sortby parameters;
     fields := fields parameters |}.

(** A response carries a next link. *)
Definition has_next_link (response : SearchResponse) : Prop :=
  ∃ link, link ∈ links response ∧ dot link "title" = Ok (Str "next").


(** What one filter entry adds to the range clauses on [properties.P]. *)
Definition range_share (P : string) (query : dict obj) (property : string) : list obj :=
  if String.eqb property P then
    match get query property with
    | Some operatorsObject =>
        if includes (keys operatorsObject) "gt" || includes (keys operatorsObject) "lt" ||
           includes (keys operatorsObject) "gte" || includes (keys operatorsObject) "lte"
        then [supplied_bounds operatorsObject]
        else []
    | None => []
    end
  else [].

(** A mapping without its [__proto__] entry. *)
Definition without_proto (o : dict val) : dict val :=
  List.filter (fun kv => negb (String.eqb (fst kv) "__proto__")) o.

(** The prototype [Object.assign({}, o, ...)] gives the copy: what [o]
    holds under [__proto__] when that is an object or [null]; [None]
    when the copy keeps [Object.prototype]. *)
Definition proto_given (o : dict val) : option val :=
  match get o "__proto__" with
  | Some (VRef l) => Some (VRef l)
  | Some VNull => Some VNull
  | _ => None
  end.

(** [link.rel] of a link that is neither [undefined] nor [null]. *)
Definition rel_of (h : heap) (link : val) : val :=
  default VUndefined (mbind (fun ps => get ps "rel") (props_of h link)).

(** A link whose [rel] is one of self, root, parent, child, collection,
    item. *)
Definition hierarchy_link (h : heap) (link : val) : bool :=
  match rel_of h link with
  | VStr rel => bool_decide (rel ∈ ["self"; "root"; "parent"; "child"; "collection"; "item"])
  | _ => false
  end.

Definition nullish (v : val) : Prop := v = VUndefined ∨ v = VNull.

(** A record is an Item when it has a [geometry] and no [extent]. *)
Definition classified_item (h : heap) (data : val) : Prop :=
  truthy_val data = true
  ∧ hasOwnProperty h data "extent" = Ok false
  ∧ hasOwnProperty h data "geometry" = Ok true.

(** An engine in which no index exists: every existence probe resolves
    to false, creation succeeds. *)
Definition empty_engine : Client :=
  {| indices := [("exists", fun _ => Promise (Ok (Bool false)));
                 ("create", fun _ => Promise (Ok (Obj [("acknowledged", Bool true)])))];
     client_search := fun _ => Promise (Ok {| hits_hits := []; hits_total := 0 |});
     client_update := fun _ _ => Promise (Ok Undefined) |}.

Definition default_env : Env :=
  {| env_COLLECTIONS_INDEX := None; env_ITEMS_INDEX := None |}.

(** A store with one Item,
    [{id: "item-1", geometry: null, collection: "landsat", links: [l1, l2]}],
    [l1 = {rel: "self", href: "a"}], [l2 = {rel: "license", href: "b"}];
    no collection has been ingested. *)
Definition item_store : heap :=
  <[1%positive := CObj [("id", VStr "item-1"); ("geometry", VNull);
                        ("collection", VStr "landsat"); ("links", VRef 2%positive)]]>
  (<[2%positive := CArr [VRef 3%positive; VRef 4%positive] []]>
  (<[3%positive := CObj [("rel", VStr "self"); ("href", VStr "a")]]>
  (<[4%positive := CObj [("rel", VStr "license"); ("href", VStr "b")]]> ∅))).

(** [patch.properties] as the partial update reads it. *)
Definition properties_of (patch : dict val) : val :=
  default VUndefined (get patch "properties").

(** The update call the partial update issues for [itemId] with the
    patch object as its document, serialised from store [h]. *)
Definition sent_update (env : Env) (esClient : option Client) (itemId updateFields : val)
    (h : heap) : result value :=
  let? client := the_client esClient "update" in
  await (client_update client
           {| u_index := ITEMS_INDEX env; u_id := itemId; u_type := "doc";
              u__source := true; u_body_doc := updateFields |} h).

(** A store with the patch [{status: "archived"}] at 1. *)
Definition patch_store_flat : heap :=
  <[1%positive := CObj [("status", VStr "archived")]]> ∅.

(** A store with the patch [{properties: {status: "archived", updated: "old"}}]
    at 1, its properties object at 2. *)
Definition patch_store_nested : heap :=
  <[1%positive := CObj [("properties", VRef 2%positive)]]>
  (<[2%positive := CObj [("status", VStr "archived"); ("updated", VStr "old")]]> ∅).


(** The text before the first [sep] and the text after it. *)
Fixpoint break (sep : ascii) (s : string) : option (string * string) :=
  match s with
  | EmptyString => None
  | String c rest =>
      if Ascii.eqb c sep then Some (EmptyString, rest)
      else match break sep rest with
           | Some (before, after) => Some (String c before, after)
           | None => None
           end
  end.

(** A stand-in for the platform's URL parser on hrefs written
    [scheme://host/path], used by the examples. *)
Definition simple_URL (s : string) : result URL :=
  match break ":" s with
  | Some (String c scheme, String "/" (String "/" rest)) =>
      match break "/" rest with
      | Some (host, path) =>
          Ok {| protocol := String c scheme +:+ ":"; hostname := host;
                pathname := "/" +:+ path |}
      | None =>
          Ok {| protocol := String c scheme +:+ ":"; hostname := rest; pathname := "" |}
      end
  | _ => Throw (TypeError "Invalid URL")
  end.

(** An object store and an HTTP client for the examples: each answers
    with a document naming what was asked of it; the HTTP client, like
    the one the lambda imports, refuses every protocol other than http:
    and https:. *)
Definition echo_getObjectJson (bucket key : string) : result value :=
  Ok (Obj [("bucket", Str bucket); ("key", Str key)]).

Definition echo_got (href : value) : result value :=
  match simple_URL (to_string href) with
  | Ok url =>
      if String.eqb (protocol url) "http:" || String.eqb (protocol url) "https:"
      then Ok (Obj [("fetched", href)])
      else Throw (External "UnsupportedProtocolError")
  | Throw e => Throw e
  end.


(** A pipeline of two stages whose sink confirms every flush. *)
Definition confirming_stream (_ : unit) : result (option (StreamPair unit)) :=
  Ok (Some {| toDB := Some tt; dbStream := Some tt |}).

Definition confirming_pump (_ _ : option unit) (_ : list value)
    : result (option (option error)) :=
  Ok (Some None).

(** The kind of a clause: the single key of its object. *)
Definition clause_kind (clause : value) : option string :=
  match clause with
  | Obj [(kind, _)] => Some kind
  | _ => None
  end.

(** The operators the compiler knows. *)
Definition supported_operators : list string := ["eq"; "in"; "gt"; "lt"; "gte"; "lte"].

(** Parts joined with a separator. *)
Fixpoint join (sep : string) (parts : list string) : string :=
  match parts with
  | [] => ""
  | part :: rest =>
      match rest with
      | [] => part
      | _ => part +:+ sep +:+ join sep rest
      end
  end.

(** The fields every projection starts from. *)
Definition baseline_fields : list string :=
  ["id"; "type"; "geometry"; "bbox"; "links"; "assets"; "collection"; "properties.datetime"].

Definition with_fields (parameters : Parameters) (f : option Fields) : Parameters :=
  {| query := query parameters; intersects := intersects parameters;
     collections := collections parameters; datetime := datetime parameters;
     ids := ids parameters; id := id parameters; sortby := sortby parameters;
     fields := Some f |}.

Definition with_ids (parameters : Parameters) (v : value) : Parameters :=
  {| query := query parameters; intersects := intersects parameters;
     collections := collections parameters; datetime := datetime parameters;
     ids := Some v; id := id parameters; sortby := sortby parameters;
     fields := fields parameters |}.

(** The value of [_esClient] after a series of [esClient()] calls, each
    with what [connect] would do at that moment. *)
Definition esClient_calls {C : Type} (connects : list (unit → result C * list logentry))
    (_esClient : option C) : option C :=
  fold_left (fun state connect => (esClient connect state).1) connects _esClient.

(** The client a connection attempt yields, if it succeeds. *)
Definition connected {C : Type} (connect : unit → result C * list logentry) : option C :=
  match (connect tt).1 with
  | Ok client => Some client
  | Throw _ => None
  end.

(** An engine whose search fails. *)
Definition failing_engine (e : error) : Client :=
  {| indices := [];
     client_search := fun _ => Promise (Throw e);
     client_update := fun _ _ => Promise (Throw e) |}.

(** A client that, unlike the engine's, defines an [exits] probe: it
    reports [found], and creation fails with [e]. *)
Definition probing_engine (found : value) (e : error) : Client :=
  {| indices := [("exits", fun _ => Promise (Ok found));
                 ("create", fun _ => Promise (Throw e))];
     client_search := fun _ => Promise (Throw e);
     client_update := fun _ _ => Promise (Throw e) |}.

(** A store with the patch [{properties: "archived"}] at 1 and an
    unrelated object at 2. *)
Definition patch_store_primitive : heap :=
  <[1%positive := CObj [("properties", VStr "archived")]]>
  (<[2%positive := CObj [("id", VStr "other")]]> ∅).


(** A store with a Collection that also has a geometry and no links. *)
Definition collection_store : heap :=
  <[1%positive := CObj [("id", VStr "landsat"); ("extent", VNull); ("geometry", VNull)]]> ∅.

(** A JSON parser for the examples: it knows two message bodies. *)
Definition example_JSON_parse (s : string) : result value :=
  if String.eqb s "item" then Ok (Obj [("id", Str "item-1"); ("href", Str "s3://bucket/key")])
  else if String.eqb s "sns" then Ok (Obj [("Type", Str "Notification"); ("Message", Str "item")])
  else Throw (External "SyntaxError").

(** A request that includes one property and excludes [bbox]. *)
Definition projection_example : Parameters :=
  with_fields no_parameters
    (Some {| include := Some ["properties.eo:cloud_cover"]; exclude := Some ["bbox"] |}).

(** * Properties *)

(** ** Strings and mappings *)

Lemma split_length sep s : length (split sep s) = S (count_sep sep s).
Proof.
  induction s as [|c rest IH]; simpl; [done|].
  destruct (Ascii.eqb c sep); simpl; [by rewrite IH|].
  destruct (split sep rest) eqn:E; simpl in *; [done|]. by rewrite <- IH.
Qed.

Lemma split_no_sep sep s : count_sep sep s = 0%nat → split sep s = [s].
Proof.
  induction s as [|c rest IH]; simpl; [done|].
  destruct (Ascii.eqb c sep); simpl; [done|].
  intros H. by rewrite IH.
Qed.

Lemma split_at_first sep a b :
  count_sep sep a = 0%nat →
  split sep (a +:+ String sep b) = a :: split sep b.
Proof.
  induction a as [|c rest IH]; simpl.
  - intros _. by rewrite Ascii.eqb_refl.
  - destruct (Ascii.eqb c sep); simpl; [done|].
    intros H. by rewrite IH.
Qed.

Lemma includes_true xs x : includes xs x = true ↔ x ∈ xs.
Proof.
  unfold includes. rewrite existsb_exists. split.
  - intros (y & Hy & E). apply String.eqb_eq in E. subst. by apply list_elem_of_In.
  - intros H. exists x. split; [by apply list_elem_of_In | apply String.eqb_refl].
Qed.

Lemma includes_keys {A} (o : dict A) k :
  includes (keys o) k = match get o k with Some _ => true | None => false end.
Proof.
  induction o as [|[k' v] o IH]; simpl; [done|].
  unfold includes in *. simpl. destruct (String.eqb k k'); simpl; [done | apply IH].
Qed.

Lemma get_Some_keys {A} (o : dict A) k v : get o k = Some v → k ∈ keys o.
Proof.
  intros H. apply includes_true. rewrite includes_keys. by rewrite H.
Qed.

(** ** Datetime *)

Lemma buildDatetimeQuery_range parameters a b :
  datetime parameters = Some (a +:+ "/" +:+ b) →
  count_sep "/" a = 0%nat → count_sep "/" b = 0%nat →
  buildDatetimeQuery parameters =
    Some (Obj [("range", Obj [("properties.datetime", Obj [("gte", Str a); ("lte", Str b)])])]).
Proof.
  intros Hd Ha Hb. unfold buildDatetimeQuery. rewrite Hd.
  change (a +:+ "/" +:+ b) with (a +:+ String "/" b).
  rewrite (split_at_first "/" a b Ha), (split_no_sep "/" b Hb). simpl.
  destruct a; simpl; done.
Qed.

Lemma buildDatetimeQuery_term parameters s :
  datetime parameters = Some s → s ≠ "" → count_sep "/" s ≠ 1%nat →
  buildDatetimeQuery parameters =
    Some (Obj [("term", Obj [("properties.datetime", Str s)])]).
Proof.
  intros Hd Hs Hn. unfold buildDatetimeQuery. rewrite Hd. simpl.
  destruct (String.eqb_spec s ""); [done|]. simpl.
  rewrite split_length.
  destruct (Nat.eqb_spec (S (count_sep "/" s)) 2); [lia | done].
Qed.

(** C3, as amended: a non-empty datetime with exactly one [/] compiles to
    the closed range clause on [properties.datetime] from the text before
    the separator to the text after it; a non-empty datetime with no
    separator, or with two or more, compiles to the exact-match clause on
    [properties.datetime] with the whole value. *)
Theorem buildDatetimeQuery_one_separator parameters s :
  datetime parameters = Some s → s ≠ "" →
  (∀ a b, s = a +:+ "/" +:+ b → count_sep "/" a = 0%nat → count_sep "/" b = 0%nat →
     buildDatetimeQuery parameters =
       Some (Obj [("range",
                   Obj [("properties.datetime", Obj [("gte", Str a); ("lte", Str b)])])]))
  ∧ (count_sep "/" s ≠ 1%nat →
     buildDatetimeQuery parameters =
       Some (Obj [("term", Obj [("properties.datetime", Str s)])])).
Proof.
  intros Hd Hs. split.
  - intros a b -> Ha Hb. by apply buildDatetimeQuery_range.
  - intros Hn. by apply buildDatetimeQuery_term.
Qed.

Lemma buildDatetimeQuery_one_separator_witness :
  buildDatetimeQuery (with_datetime no_parameters "2020-01-01/2020-02-01") =
    Some (Obj [("range",
                Obj [("properties.datetime",
                      Obj [("gte", Str "2020-01-01"); ("lte", Str "2020-02-01")])])])
  ∧ buildDatetimeQuery (with_datetime no_parameters "2020-01-01") =
    Some (Obj [("term", Obj [("properties.datetime", Str "2020-01-01")])]).
Proof.
  split.
  - apply (proj1 (buildDatetimeQuery_one_separator
                    (with_datetime no_parameters "2020-01-01/2020-02-01")
                    "2020-01-01/2020-02-01" eq_refl ltac:(discriminate))
                 "2020-01-01" "2020-02-01"); reflexivity.
  - apply (proj2 (buildDatetimeQuery_one_separator
                    (with_datetime no_parameters "2020-01-01")
                    "2020-01-01" eq_refl ltac:(discriminate))).
    vm_compute. discriminate.
Defined.

(** C3, as stated, fails: a datetime with two separators contains a [/]
    and compiles to an exact-match clause with the whole value, not to a
    range clause. *)
Lemma buildDatetimeQuery_two_separators :
  let d := "2020-01-01/2020-02-01/2020-03-01" in
  let compiled := buildDatetimeQuery (with_datetime no_parameters d) in
  (0 < count_sep "/" d)%nat
  ∧ compiled = Some (Obj [("term", Obj [("properties.datetime", Str d)])])
  ∧ (compiled ≫= range_on "properties.datetime") = None.
Proof. vm_compute. repeat split; lia. Qed.

(** ** Search *)

Lemma round53_exact z : Z.abs z ≤ two53 → round53 z = z.
Proof. intros H. unfold round53. by destruct (Z.leb_spec (Z.abs z) two53); [|lia]. Qed.






(** ** Range clauses *)

Lemma get_supplied_bounds operatorsObject k :
  get (supplied_bounds operatorsObject) k =
    if includes comparisons k then get operatorsObject k else None.
Proof.
  unfold supplied_bounds, comparisons, includes. simpl.
  destruct (get operatorsObject "gt") eqn:Egt, (get operatorsObject "lt") eqn:Elt,
           (get operatorsObject "gte") eqn:Egte, (get operatorsObject "lte") eqn:Elte;
    simpl;
    repeat (match goal with
            | |- context [String.eqb k ?c] =>
                destruct (String.eqb_spec k c); simpl; [subst; try done|]
            end); try done.
Qed.

Lemma keys_supplied_bounds operatorsObject :
  NoDup (keys (supplied_bounds operatorsObject))
  ∧ ∀ k, k ∈ keys (supplied_bounds operatorsObject) ↔
         k ∈ comparisons ∧ k ∈ keys operatorsObject.
Proof.
  split.
  - unfold supplied_bounds, comparisons. simpl.
    destruct (get operatorsObject "gt"), (get operatorsObject "lt"),
             (get operatorsObject "gte"), (get operatorsObject "lte"); simpl;
      apply (bool_decide_unpack _); vm_compute; exact I.
  - intros k. rewrite <- !includes_true, !includes_keys, get_supplied_bounds.
    destruct (includes comparisons k), (get operatorsObject k); intuition congruence.
Qed.

Lemma has_range_operator_includes operatorsObject :
  has_range_operator operatorsObject →
  includes (keys operatorsObject) "gt" || includes (keys operatorsObject) "lt" ||
  includes (keys operatorsObject) "gte" || includes (keys operatorsObject) "lte" = true.
Proof.
  intros (c & Hc & Hk). apply includes_true in Hk.
  unfold comparisons in Hc.
  repeat (apply elem_of_cons in Hc as [->|Hc]; [rewrite Hk; by rewrite ?orb_true_r|]).
  by apply elem_of_nil in Hc.
Qed.

(** The range clause of one filter entry: a single clause with the
    supplied bounds, or none when the entry has no range operator. *)
Lemma buildRangeQuery_supplied property operatorsObject :
  buildRangeQuery property (keys operatorsObject) operatorsObject =
    if includes (keys operatorsObject) "gt" || includes (keys operatorsObject) "lt" ||
       includes (keys operatorsObject) "gte" || includes (keys operatorsObject) "lte"
    then Some (Obj [("range",
                     Obj [("properties." +:+ property, Obj (supplied_bounds operatorsObject))])])
    else None.
Proof.
  unfold buildRangeQuery, supplied_bounds, comparisons, prop. simpl.
  rewrite !includes_keys.
  destruct (get operatorsObject "gt"), (get operatorsObject "lt"),
           (get operatorsObject "gte"), (get operatorsObject "lte"); reflexivity.
Qed.

Section RangeClauses.
Context (P : string).
Local Abbreviation key := ("properties." +:+ P).

Local Abbreviation range_share := (range_share P).

Lemma range_on_push clauses clause :
  omap (range_on key) (push clauses clause) =
    (omap (range_on key) clauses ++ option_list (range_on key clause))%list.
Proof.
  unfold push. rewrite omap_app. simpl. by destruct (range_on key clause).
Qed.

Lemma range_on_range property bounds :
  range_on key (Obj [("range", Obj [("properties." +:+ property, Obj bounds)])]) =
    if String.eqb property P then Some bounds else None.
Proof. reflexivity. Qed.

Lemma range_on_other_kind kind k operand :
  String.eqb kind "range" = false →
  range_on key (Obj [(kind, Obj [(k, operand)])]) = None.
Proof. intros H. destruct operand; simpl; by rewrite ?H. Qed.

Lemma range_on_queryReducer query accumulator property :
  omap (range_on key) (queryReducer query accumulator property) =
    (omap (range_on key) accumulator ++ range_share query property)%list.
Proof.
  unfold queryReducer, range_share.
  destruct (get query property) as [operatorsObject|];
    [|destruct (String.eqb property P); simpl; by rewrite app_nil_r].
  rewrite buildRangeQuery_supplied.
  set (ranged := includes (keys operatorsObject) "gt" || _ || _ || _).
  assert (∀ acc, omap (range_on key)
                   (push_if acc (if ranged
                                 then Some (Obj [("range",
                                                  Obj [("properties." +:+ property,
                                                        Obj (supplied_bounds operatorsObject))])])
                                 else None)) =
                 (omap (range_on key) acc ++
                  (if String.eqb property P
                   then if ranged then [supplied_bounds operatorsObject] else []
                   else []))%list) as Hpush.
  { intros acc. destruct ranged; simpl.
    - rewrite range_on_push, range_on_range. by destruct (String.eqb property P).
    - destruct (String.eqb property P); by rewrite app_nil_r. }
  rewrite Hpush.
  destruct (includes (keys operatorsObject) "eq");
    [|destruct (includes (keys operatorsObject) "in")];
    rewrite ?range_on_push, ?range_on_other_kind by done; simpl; by rewrite ?app_nil_r.
Qed.

Lemma range_on_fold query properties accumulator :
  omap (range_on key) (fold_left (queryReducer query) properties accumulator) =
    (omap (range_on key) accumulator ++ flat_map (range_share query) properties)%list.
Proof.
  revert accumulator. induction properties as [|property properties IH]; intros acc; simpl.
  - by rewrite app_nil_r.
  - rewrite IH, range_on_queryReducer. by rewrite <- app_assoc.
Qed.

Lemma range_share_other query properties :
  P ∉ properties → flat_map (range_share query) properties = [].
Proof.
  induction properties as [|property properties IH]; simpl; [done|].
  intros Hnot. apply not_elem_of_cons in Hnot as [Hne Hnot].
  rewrite IH by done. unfold range_share.
  destruct (String.eqb_spec property P); [congruence | done].
Qed.

Lemma range_share_once query properties operatorsObject :
  NoDup properties → P ∈ properties →
  get query P = Some operatorsObject → has_range_operator operatorsObject →
  flat_map (range_share query) properties = [supplied_bounds operatorsObject].
Proof.
  intros Hnd Hin Hget Hrange.
  induction properties as [|property properties IH]; [by apply elem_of_nil in Hin|].
  apply NoDup_cons in Hnd as [Hfresh Hnd]. simpl.
  destruct (String.eqb_spec property P) as [->|Hne].
  - rewrite (range_share_other query properties Hfresh), app_nil_r.
    unfold range_share. rewrite String.eqb_refl, Hget.
    by rewrite has_range_operator_includes.
  - apply elem_of_cons in Hin as [->|Hin]; [done|].
    rewrite (IH Hnd Hin). unfold range_share.
    destruct (String.eqb_spec property P); [congruence | done].
Qed.

(** The clauses compiled from the filter hold exactly one range clause
    on [properties.P], with the supplied bounds. *)
Lemma queryClauses_single_range query operatorsObject :
  NoDup (keys query) →
  get query P = Some operatorsObject → has_range_operator operatorsObject →
  omap (range_on key) (queryClauses query) = [supplied_bounds operatorsObject].
Proof.
  intros Hnd Hget Hrange. unfold queryClauses. rewrite range_on_fold. simpl.
  apply range_share_once; [done | by eapply get_Some_keys | done | done].
Qed.

(** The whole clause list: the filter's clauses, then the collection,
    spatial and datetime clauses, of which only the datetime clause can
    be a range clause. *)
Lemma range_on_must parameters :
  omap (range_on key) (must_of (buildQuery parameters)) =
    (omap (range_on key) (from_option queryClauses [] (query parameters)) ++
     option_list (buildDatetimeQuery parameters ≫= range_on key))%list.
Proof.
  unfold buildQuery, must_of. simpl.
  destruct (buildDatetimeQuery parameters) as [clause|]; simpl.
  - rewrite range_on_push.
    destruct (present (collections parameters)), (present (intersects parameters)),
             (query parameters);
      rewrite ?range_on_push, ?range_on_other_kind by done; simpl; by rewrite ?app_nil_r.
  - destruct (present (collections parameters)), (present (intersects parameters)),
             (query parameters);
      rewrite ?range_on_push, ?range_on_other_kind by done; simpl; by rewrite ?app_nil_r.
Qed.
End RangeClauses.

Lemma datetime_clause_other_key parameters P :
  P ≠ "datetime" →
  buildDatetimeQuery parameters ≫= range_on ("properties." +:+ P) = None.
Proof.
  intros Hne. unfold buildDatetimeQuery.
  assert (String.eqb "datetime" P = false) as Hk.
  { destruct (String.eqb_spec "datetime" P); congruence. }
  destruct (datetime parameters) as [d|]; [|done].
  destruct (truthy (Str d)); [|done].
  destruct (Nat.eqb (length (split "/" d)) 2).
  - etrans; [apply (range_on_range P "datetime")|]. by rewrite Hk.
  - by apply (range_on_other_kind P "term").
Qed.

(** C2, as amended: when the filter gives property [P] some of the
    operators gt, lt, gte, lte, the clauses compiled from the filter
    contain exactly one range clause on [properties.P], and it carries all
    and only the supplied bounds with their operands.  The compiled
    document holds that clause and no other range clause on
    [properties.P], except that a datetime range in the request adds its
    own range clause when [P] is [datetime]. *)
Theorem buildQuery_single_range_clause parameters q P operatorsObject :
  query parameters = Some q → NoDup (keys q) →
  get q P = Some operatorsObject → has_range_operator operatorsObject →
  let key := "properties." +:+ P in
  let bounds := supplied_bounds operatorsObject in
  NoDup (keys bounds)
  ∧ (∀ k, get bounds k = if includes comparisons k then get operatorsObject k else None)
  ∧ omap (range_on key) (queryClauses q) = [bounds]
  ∧ omap (range_on key) (must_of (buildQuery parameters)) =
      bounds :: option_list (buildDatetimeQuery parameters ≫= range_on key)
  ∧ (P ≠ "datetime" ∨ datetime parameters = None →
     omap (range_on key) (must_of (buildQuery parameters)) = [bounds]).
Proof.
  intros Hq Hnd Hget Hrange key bounds.
  pose proof (queryClauses_single_range P q operatorsObject Hnd Hget Hrange) as Hone.
  pose proof (range_on_must P parameters) as Hmust. rewrite Hq in Hmust. simpl in Hmust.
  fold key in Hone, Hmust. rewrite Hone in Hmust.
  split; [apply keys_supplied_bounds|].
  split; [apply get_supplied_bounds|].
  split; [done|]. split; [done|].
  intros [Hne|Hnone]; rewrite Hmust.
  - unfold key. by rewrite datetime_clause_other_key.
  - unfold buildDatetimeQuery. by rewrite Hnone.
Qed.

Lemma buildQuery_single_range_clause_witness :
  omap (range_on "properties.foo")
       (must_of (buildQuery (with_query no_parameters [("foo", [("gt", Num 1); ("lte", Num 5)])])))
  = [[("gt", Num 1); ("lte", Num 5)]].
Proof.
  apply (buildQuery_single_range_clause
           (with_query no_parameters [("foo", [("gt", Num 1); ("lte", Num 5)])])
           [("foo", [("gt", Num 1); ("lte", Num 5)])] "foo" [("gt", Num 1); ("lte", Num 5)]).
  - reflexivity.
  - apply (bool_decide_unpack _). vm_compute. exact I.
  - reflexivity.
  - exists "gt". split; apply (bool_decide_unpack _); vm_compute; exact I.
  - left. discriminate.
Defined.

(** C2, as stated, fails: a filter on [datetime] together with a datetime
    range compiles to two range clauses on [properties.datetime]. *)
Lemma buildQuery_two_range_clauses_on_datetime :
  let bounds := [("gte", Str "2020-01-01"); ("lte", Str "2020-02-01")] in
  let parameters :=
    with_datetime (with_query no_parameters [("datetime", bounds)]) "2020-01-01/2020-02-01" in
  let clause := Obj [("range", Obj [("properties.datetime", Obj bounds)])] in
  must_of (buildQuery parameters) = [clause; clause]
  ∧ omap (range_on "properties.datetime") (must_of (buildQuery parameters)) = [bounds; bounds].
Proof. split; reflexivity. Qed.

(** ** The store *)

Lemma get_put_eq {A} (o : dict A) k v : get (put o k v) k = Some v.
Proof.
  induction o as [|[k' v'] o IH]; simpl.
  - by rewrite String.eqb_refl.
  - destruct (String.eqb_spec k k') as [->|Hne]; simpl.
    + by rewrite String.eqb_refl.
    + by destruct (String.eqb_spec k k').
Qed.

Lemma get_put_ne {A} (o : dict A) k k' v : k' ≠ k → get (put o k v) k' = get o k'.
Proof.
  intros Hne. induction o as [|[k0 v0] o IH]; simpl.
  - by destruct (String.eqb_spec k' k).
  - destruct (String.eqb_spec k k0) as [->|Hk]; simpl.
    + by destruct (String.eqb_spec k' k0).
    + destruct (String.eqb_spec k' k0); [done | apply IH].
Qed.

Lemma put_new {A} (t : dict A) k v : k ∉ keys t → put t k v = (t ++ [(k, v)])%list.
Proof.
  induction t as [|[k' v'] t IH]; simpl; [done|].
  intros Hk. apply not_elem_of_cons in Hk as [Hne Hk].
  destruct (String.eqb_spec k k'); [done|]. by rewrite IH.
Qed.

Lemma get_not_key {A} (o : dict A) k : k ∉ keys o → get o k = None.
Proof.
  induction o as [|[k' v'] o IH]; simpl; [done|].
  intros Hk. apply not_elem_of_cons in Hk as [Hne Hk].
  destruct (String.eqb_spec k k'); [done | by apply IH].
Qed.

Lemma without_proto_id (o : dict val) : "__proto__" ∉ keys o → without_proto o = o.
Proof.
  induction o as [|[k v] o IH]; simpl; [done|].
  intros Hk. apply not_elem_of_cons in Hk as [Hne Hk].
  destruct (String.eqb_spec k "__proto__"); [congruence|]. simpl. by rewrite IH.
Qed.

Lemma proto_given_cons_ne k v (o : dict val) :
  k ≠ "__proto__" → proto_given ((k, v) :: o) = proto_given o.
Proof.
  intros Hk. unfold proto_given.
  change (get ((k, v) :: o) "__proto__")
    with (if String.eqb "__proto__" k then Some v else get o "__proto__").
  by destruct (String.eqb_spec "__proto__" k).
Qed.

Lemma without_proto_cons_ne k v (o : dict val) :
  k ≠ "__proto__" → without_proto ((k, v) :: o) = (k, v) :: without_proto o.
Proof.
  intros Hk.
  change (without_proto ((k, v) :: o))
    with (if negb (String.eqb k "__proto__") then (k, v) :: without_proto o
          else without_proto o).
  by destruct (String.eqb_spec k "__proto__").
Qed.

(** Copying one source onto a target that has no own [__proto__]. *)
Lemma set_on_fresh_fold h (o : dict val) :
  ∀ p t,
    NoDup (keys t ++ keys o) → "__proto__" ∉ keys t →
    p = None ∨ "__proto__" ∉ keys o →
    fold_left (fun t' kv => set_on_fresh h t' (fst kv) (snd kv)) o (p, t) =
      (match proto_given o with Some v => Some v | None => p end,
       (t ++ without_proto o)%list).
Proof.
  induction o as [|[k v] o IH]; intros p t Hnd Ht Hp.
  - simpl. by rewrite app_nil_r.
  - cbn [fold_left fst snd].
    assert (NoDup (keys t ++ keys o)) as Hnd'.
    { unfold keys in *. simpl in Hnd. apply NoDup_app in Hnd as (H1 & H2 & H3).
      apply NoDup_app. split; [done|]. split; [|by apply NoDup_cons in H3 as [_ ?]].
      intros x Hx Hin. apply (H2 x Hx). by right. }
    assert (k ∉ keys t) as Hkt.
    { apply NoDup_app in Hnd as (_ & H2 & _). intros Hin. apply (H2 k Hin). simpl. left. }
    assert (k ∉ keys o) as Hko.
    { apply NoDup_app in Hnd as (_ & _ & H3). simpl in H3. by apply NoDup_cons in H3 as [? _]. }
    destruct (String.eqb_spec k "__proto__") as [->|Hk].
    + destruct Hp as [->|Hp]; [|exfalso; apply Hp; simpl; left].
      assert (set_on_fresh h (None, t) "__proto__" v =
                (match v with VRef _ | VNull => Some v | _ => None end, t)) as ->.
      { unfold set_on_fresh. simpl.
        destruct (includes (keys t) "__proto__") eqn:Hi;
          [by apply includes_true in Hi|]. by destruct v. }
      rewrite IH by auto.
      unfold proto_given. rewrite (get_not_key o "__proto__" Hko).
      change (get (("__proto__", v) :: o) "__proto__") with (Some v).
      change (without_proto (("__proto__", v) :: o)) with (without_proto o).
      by destruct v.
    + assert (set_on_fresh h (p, t) k v = (p, (t ++ [(k, v)])%list)) as ->.
      { unfold set_on_fresh. destruct (String.eqb_spec k "__proto__"); [done|]. simpl.
        by rewrite put_new. }
      rewrite IH.
      * rewrite (proto_given_cons_ne k v o Hk), (without_proto_cons_ne k v o Hk).
        by rewrite <- app_assoc.
      * unfold keys in *. rewrite map_app. simpl. by rewrite <- app_assoc.
      * unfold keys. rewrite map_app. simpl. intros Hin.
        apply elem_of_app in Hin as [Hin|Hin]; [by apply Ht|].
        apply list_elem_of_singleton in Hin. congruence.
      * destruct Hp as [->|Hp]; [by left|]. right. intros Hin. apply Hp. simpl. by right.
Qed.

(** What [Object.assign({}, o, {links})] builds. *)
Lemma assign_fresh_links h (o : dict val) v :
  NoDup (keys o) →
  assign_fresh h [o; [("links", v)]] = (proto_given o, put (without_proto o) "links" v).
Proof.
  intros Hnd.
  assert (NoDup (keys ([] : dict val) ++ keys o)) as Hnd' by done.
  pose proof (set_on_fresh_fold h o None [] Hnd' (not_elem_of_nil _) (or_introl eq_refl))
    as Hcopy.
  etrans; [exact (f_equal (fun t => set_on_fresh h t "links" v) Hcopy)|].
  simpl. by destruct (proto_given o).
Qed.

Lemma alloc_fresh (h : heap) c : h !! (alloc h c).1 = None.
Proof. apply not_elem_of_dom. apply is_fresh. Qed.

Lemma alloc_lookup (h : heap) c : (alloc h c).2 !! (alloc h c).1 = Some c.
Proof. unfold alloc. simpl. apply lookup_insert_eq. Qed.

Lemma alloc_preserves (h : heap) c l c' :
  h !! l = Some c' → (alloc h c).2 !! l = Some c'.
Proof.
  intros Hl. unfold alloc. simpl. rewrite lookup_insert_ne; [done|].
  intros <-. pose proof (alloc_fresh h c) as Hf. unfold alloc in Hf. simpl in Hf. congruence.
Qed.

Lemma own_enumerable_alloc (h : heap) c l c' :
  h !! l = Some c' → own_enumerable (alloc h c).2 (VRef l) = own_enumerable h (VRef l).
Proof. intros Hl. unfold own_enumerable. by rewrite (alloc_preserves h c l c' Hl), Hl. Qed.

Lemma hlinks_includes_rel h link :
  ¬ nullish link →
  read h link "rel" = Ok (rel_of h link)
  ∧ hlinks_includes (rel_of h link) = hierarchy_link h link.
Proof.
  intros Hn. split.
  - unfold read, rel_of. destruct link; try done; exfalso; apply Hn; unfold nullish; auto.
  - unfold hlinks_includes, hierarchy_link.
    destruct (rel_of h link); try done.
    apply eq_true_iff_eq. rewrite includes_true, bool_decide_eq_true. done.
Qed.

(** The filter over well-formed links keeps, in order, exactly the links
    that are not hierarchy links. *)
Lemma filter_links_spec h elems :
  Forall (fun link => ¬ nullish link) elems →
  filter_links h elems = Ok (List.filter (fun link => negb (hierarchy_link h link)) elems).
Proof.
  induction 1 as [|link elems Hlink _ IH]; simpl; [done|].
  destruct (hlinks_includes_rel h link Hlink) as [-> <-]. simpl. by rewrite IH.
Qed.

(** ** The ingest transform *)

Lemma read_ref_in_store h data name l :
  read h data name = Ok (VRef l) →
  ∃ ld c, data = VRef ld ∧ h !! ld = Some c.
Proof.
  unfold read. destruct data; try done; simpl.
  destruct (h !! l0) as [c|] eqn:Hl; [eauto | done].
Qed.

Lemma data_links_filter_spec h data la elems lprops :
  read h data "links" = Ok (VRef la) →
  h !! la = Some (CArr elems lprops) →
  Forall (fun link => ¬ nullish link) elems →
  data_links_filter h data =
    Ok (List.filter (fun link => negb (hierarchy_link h link)) elems).
Proof.
  intros Hread Hla Hok. unfold data_links_filter. rewrite Hread. simpl. rewrite Hla.
  by apply filter_links_spec.
Qed.

(** C1: for a record that the transform routes to an index (a Collection
    or an Item) and whose [links] is a sequence of link objects, the
    document of the emitted write directive is a fresh object holding the
    record's properties with [links] replaced by a fresh sequence: the
    record's links, in their order, without exactly those whose [rel] is
    self, root, parent, child, collection or item.  Every object that was
    in the store, the source record among them, is unchanged. *)
Theorem toEs_strips_hierarchy_links env client h data index la elems lprops :
  route env client h data = Ok (Some index) →
  read h data "links" = Ok (VRef la) →
  h !! la = Some (CArr elems lprops) →
  Forall (fun link => ¬ nullish link) elems →
  NoDup (keys (own_enumerable h data)) →
  ∃ h' record doc links',
    toEs env client h data = (h', Pushed record)
    ∧ r_index record = index
    ∧ r_body_doc record = VRef doc
    ∧ h !! doc = None ∧ h !! links' = None
    ∧ (∀ l c, h !! l = Some c → h' !! l = Some c)
    ∧ h' !! doc =
        Some (CObj (put (without_proto (own_enumerable h data)) "links" (VRef links')))
    ∧ h' !! links' =
        Some (CArr (List.filter (fun link => negb (hierarchy_link h link)) elems) []).
Proof.
  intros Hroute Hread Hla Hok Hnd.
  destruct (read_ref_in_store h data "links" la Hread) as (ld & cd & -> & Hld).
  unfold toEs. rewrite Hroute, (data_links_filter_spec h (VRef ld) la elems lprops) by done.
  cbv zeta.
  set (kept := List.filter _ elems).
  set (a1 := alloc h (CArr kept [])).
  destruct a1 as [links' h1] eqn:E1.
  assert (links' = (alloc h (CArr kept [])).1) as Hl1 by (by subst a1; rewrite E1).
  assert (h1 = (alloc h (CArr kept [])).2) as Hh1 by (by subst a1; rewrite E1).
  set (body := CObj _).
  set (a2 := alloc h1 body).
  destruct a2 as [doc h2] eqn:E2.
  assert (doc = (alloc h1 body).1) as Hl2 by (by subst a2; rewrite E2).
  assert (h2 = (alloc h1 body).2) as Hh2 by (by subst a2; rewrite E2).
  assert (h !! links' = None) as Hfresh1 by (subst links'; apply alloc_fresh).
  assert (h1 !! doc = None) as Hfresh2 by (subst doc; apply alloc_fresh).
  assert (∀ l c, h !! l = Some c → h1 !! l = Some c) as Hkeep1
      by (intros; subst h1; by apply alloc_preserves).
  assert (∀ l c, h1 !! l = Some c → h2 !! l = Some c) as Hkeep2
      by (intros; subst h2; by apply alloc_preserves).
  assert (h1 !! links' = Some (CArr kept [])) as Hnew1
      by (subst links' h1; apply alloc_lookup).
  assert (h2 !! doc = Some body) as Hnew2 by (subst doc h2; apply alloc_lookup).
  assert (h !! doc = None) as Hfresh.
  { destruct (h !! doc) as [c|] eqn:Hd; [|done]. apply Hkeep1 in Hd. congruence. }
  eexists h2, _, doc, links'.
  split; [reflexivity|]. split; [done|]. split; [done|]. split; [done|]. split; [done|].
  split; [by intros l c Hl; apply Hkeep2, Hkeep1|].
  split; [|by apply Hkeep2].
  rewrite Hnew2. subst body. do 2 f_equal.
  rewrite Hh1, (own_enumerable_alloc h _ ld cd Hld).
  by rewrite assign_fresh_links.
Qed.

Lemma toEs_strips_hierarchy_links_witness :
  ∃ h' record doc links',
    toEs default_env (Some empty_engine) item_store (VRef 1%positive) = (h', Pushed record)
    ∧ r_index record = "items"
    ∧ r_body_doc record = VRef doc
    ∧ item_store !! doc = None
    ∧ h' !! 1%positive = item_store !! 1%positive
    ∧ h' !! links' = Some (CArr [VRef 4%positive] []).
Proof.
  destruct (toEs_strips_hierarchy_links default_env (Some empty_engine) item_store
              (VRef 1%positive) "items" 2%positive [VRef 3%positive; VRef 4%positive] [])
    as (h' & record & doc & links' & Ht & Hi & Hd & Hf1 & Hf2 & Hkeep & Hdoc & Hlinks).
  - vm_compute. reflexivity.
  - vm_compute. reflexivity.
  - vm_compute. reflexivity.
  - repeat constructor; intros [H|H]; discriminate H.
  - apply (bool_decide_unpack _). vm_compute. exact I.
  - exists h', record, doc, links'.
    split; [exact Ht|]. split; [exact Hi|]. split; [exact Hd|]. split; [exact Hf1|].
    split; [|exact Hlinks].
    apply (Hkeep 1%positive). vm_compute. reflexivity.
Defined.

Lemma read_throws_TypeError h v name e :
  read h v name = Throw e → ∃ msg, e = TypeError msg.
Proof. unfold read. destruct v; intros H; inversion H; eauto. Qed.

Lemma filter_links_throws_TypeError h links e :
  filter_links h links = Throw e → ∃ msg, e = TypeError msg.
Proof.
  induction links as [|link links IH]; simpl; [done|].
  destruct (read h link "rel") as [rel|e'] eqn:Hr; simpl.
  - destruct (filter_links h links) as [kept|e'']; simpl; [done|].
    intros H. inversion H. subst. by apply IH.
  - intros H. inversion H. subst. by eapply read_throws_TypeError.
Qed.

Lemma data_links_filter_throws_TypeError h data e :
  data_links_filter h data = Throw e → ∃ msg, e = TypeError msg.
Proof.
  unfold data_links_filter.
  destruct (read h data "links") as [links|e'] eqn:Hr; simpl.
  - destruct links; try (intros H; inversion H; eauto; fail).
    destruct (h !! l) as [[ps|elems ps]|]; try (intros H; inversion H; eauto; fail).
    apply filter_links_throws_TypeError.
  - intros H. inversion H. subst. by eapply read_throws_TypeError.
Qed.

Lemma route_item env client h data probe :
  classified_item h data →
  get (indices client) "exists" = Some probe →
  route env (Some client) h data = Ok (Some (ITEMS_INDEX env)).
Proof.
  intros (Htruthy & Hextent & Hgeometry) Hprobe.
  unfold route. rewrite Htruthy, Hextent. simpl. rewrite Hgeometry. simpl.
  unfold indices_call. by rewrite Hprobe.
Qed.

(** C6, on the code: for an Item, whatever the engine's existence probe
    would report, the transform routes the record to the items index, and
    the call never raises the missing-collection error: the probe's
    promise is tested without being awaited, and a promise is truthy. *)
Theorem toEs_item_never_raises_missing_collection env client h data probe :
  classified_item h data →
  get (indices client) "exists" = Some probe →
  route env (Some client) h data = Ok (Some (ITEMS_INDEX env))
  ∧ ∀ msg, (toEs env (Some client) h data).2 ≠ Thrown (Error msg).
Proof.
  intros Hitem Hprobe.
  pose proof (route_item env client h data probe Hitem Hprobe) as Hroute.
  split; [done|]. intros msg. unfold toEs. rewrite Hroute.
  destruct (data_links_filter h data) as [kept|e] eqn:Hf.
  - cbv zeta. destruct (alloc h (CArr kept [])) as [links h1].
    destruct (alloc h1 _) as [doc h2]. simpl. done.
  - apply data_links_filter_throws_TypeError in Hf as [m ->]. simpl. done.
Qed.

(** The Item of [item_store], with no collection in the engine: the
    transform emits the update directive for the items index. *)
Lemma toEs_item_store_pushed :
  ∃ h' doc,
    toEs default_env (Some empty_engine) item_store (VRef 1%positive) =
      (h', Pushed {| r_index := "items"; r_type := "doc"; r_id := VStr "item-1";
                     r_action := "update"; r__retry_on_conflict := 3;
                     r_body_doc := VRef doc; r_body_doc_as_upsert := true |}).
Proof. vm_compute. eauto. Qed.

Lemma toEs_item_never_raises_missing_collection_witness :
  indices_call empty_engine "exists" (Str "items") = Ok (Promise (Ok (Bool false)))
  ∧ route default_env (Some empty_engine) item_store (VRef 1%positive) = Ok (Some "items")
  ∧ (toEs default_env (Some empty_engine) item_store (VRef 1%positive)).2 ≠
      Thrown (Error "Collection items does not exist, add before ingesting items").
Proof.
  split; [reflexivity|].
  destruct (toEs_item_never_raises_missing_collection default_env empty_engine item_store
              (VRef 1%positive) (fun _ => Promise (Ok (Bool false)))) as [Hroute Hnever].
  - repeat split; vm_compute; reflexivity.
  - reflexivity.
  - split; [exact Hroute | apply Hnever].
Defined.

(** ** Partial update *)

Lemma read_object h l ps name :
  h !! l = Some (CObj ps) → read h (VRef l) name = Ok (default VUndefined (get ps name)).
Proof. intros Hl. unfold read, props_of. by rewrite Hl. Qed.

Lemma editPartialItem_properties_present env esClient now h itemId lpatch patch lp props :
  h !! lpatch = Some (CObj patch) →
  get patch "properties" = Some (VRef lp) →
  h !! lp = Some (CObj props) →
  let h' := <[lp := CObj (put props "updated" (VStr now))]>
              (alloc h (CObj [("updated", VStr now)])).2 in
  editPartialItem env esClient now h itemId (VRef lpatch) =
    (h', sent_update env esClient itemId (VRef lpatch) h').
Proof.
  intros Hpatch Hprops Hlp h'. unfold editPartialItem.
  set (a := alloc h (CObj [("updated", VStr now)])).
  assert (a.2 !! a.1 = Some (CObj [("updated", VStr now)])) as Hnew by apply alloc_lookup.
  assert (a.2 !! lpatch = Some (CObj patch)) as Hpatch1 by (by apply alloc_preserves).
  assert (a.2 !! lp = Some (CObj props)) as Hlp1 by (by apply alloc_preserves).
  subst h'. fold a. destruct a as [requiredProperties h1]. simpl in *.
  unfold read. simpl. rewrite Hpatch1. simpl. rewrite Hprops. simpl.
  rewrite Hlp1, Hnew. reflexivity.
Qed.

Lemma editPartialItem_properties_falsy env esClient now h itemId lpatch patch :
  h !! lpatch = Some (CObj patch) →
  truthy_val (properties_of patch) = false →
  let lr := (alloc h (CObj [("updated", VStr now)])).1 in
  let h' := <[lpatch := CObj (put patch "properties" (VRef lr))]>
              (alloc h (CObj [("updated", VStr now)])).2 in
  editPartialItem env esClient now h itemId (VRef lpatch) =
    (h', sent_update env esClient itemId (VRef lpatch) h').
Proof.
  intros Hpatch Hfalsy lr h'. unfold editPartialItem.
  set (a := alloc h (CObj [("updated", VStr now)])).
  assert (a.2 !! lpatch = Some (CObj patch)) as Hpatch1 by (by apply alloc_preserves).
  subst lr h'. fold a. destruct a as [requiredProperties h1]. simpl in *.
  unfold read. simpl. rewrite Hpatch1. simpl.
  unfold properties_of in Hfalsy. rewrite Hfalsy. reflexivity.
Qed.

Lemma editPartialItem_properties_primitive env esClient now h itemId lpatch patch v :
  h !! lpatch = Some (CObj patch) →
  get patch "properties" = Some v →
  truthy_val v = true → (∀ l, v ≠ VRef l) →
  let h' := (alloc h (CObj [("updated", VStr now)])).2 in
  editPartialItem env esClient now h itemId (VRef lpatch) =
    (h', sent_update env esClient itemId (VRef lpatch) h').
Proof.
  intros Hpatch Hprops Htruthy Hprim h'. subst h'. unfold editPartialItem.
  pose proof (alloc_preserves h (CObj [("updated", VStr now)]) lpatch _ Hpatch) as H1.
  destruct (alloc h (CObj [("updated", VStr now)])) as [lr h1]. cbn [snd] in *.
  rewrite (read_object h1 lpatch patch "properties" H1), Hprops. simpl.
  rewrite Htruthy.
  destruct v as [| | | | |l]; try done. by destruct (Hprim l).
Qed.

Lemma editPartialItem_properties_array env esClient now h itemId lpatch patch lp elems props :
  h !! lpatch = Some (CObj patch) →
  get patch "properties" = Some (VRef lp) →
  h !! lp = Some (CArr elems props) →
  let h' := <[lp := CArr elems (put props "updated" (VStr now))]>
              (alloc h (CObj [("updated", VStr now)])).2 in
  editPartialItem env esClient now h itemId (VRef lpatch) =
    (h', sent_update env esClient itemId (VRef lpatch) h').
Proof.
  intros Hpatch Hprops Hlp h'. unfold editPartialItem.
  set (a := alloc h (CObj [("updated", VStr now)])).
  assert (a.2 !! a.1 = Some (CObj [("updated", VStr now)])) as Hnew by apply alloc_lookup.
  assert (a.2 !! lpatch = Some (CObj patch)) as Hpatch1 by (by apply alloc_preserves).
  assert (a.2 !! lp = Some (CArr elems props)) as Hlp1 by (by apply alloc_preserves).
  subst h'. fold a. destruct a as [requiredProperties h1]. simpl in *.
  unfold read. simpl. rewrite Hpatch1. simpl. rewrite Hprops. simpl.
  rewrite Hlp1, Hnew. reflexivity.
Qed.

Lemma read_patch_after_update (h : heap) lpatch patch lp (c c' : cell) props' :
  h !! lpatch = Some (CObj patch) →
  get patch "properties" = Some (VRef lp) →
  h !! lp = Some c →
  (lp = lpatch → c' = CObj (put patch "updated" props')) →
  read (<[lp := c']> h) (VRef lpatch) "properties" = Ok (VRef lp).
Proof.
  intros Hpatch Hprops Hlp Halias.
  destruct (decide (lp = lpatch)) as [->|Hne].
  - rewrite (Halias eq_refl).
    rewrite (read_object _ lpatch (put patch "updated" props')) by apply lookup_insert_eq.
    rewrite get_put_ne by done. by rewrite Hprops.
  - rewrite (read_object _ lpatch patch); [by rewrite Hprops|].
    by rewrite lookup_insert_ne.
Qed.

(** C5, as amended: with a properties mapping (an object) in the patch,
    the document sent to the engine is the patch with that mapping
    carrying [updated] = the server timestamp and every other
    caller-supplied property as supplied.  With [properties] absent or
    falsy, the document's [properties] is an object holding only
    [updated].  With [properties] a truthy primitive, the document is
    the patch as supplied and carries no timestamp; with an array, the
    array is kept and [updated] is set on it as a named property. *)
Theorem editPartialItem_sent_document env client now h itemId lpatch patch :
  h !! lpatch = Some (CObj patch) →
  (∀ lp props,
     get patch "properties" = Some (VRef lp) → h !! lp = Some (CObj props) →
     ∃ h' props',
       editPartialItem env (Some client) now h itemId (VRef lpatch) =
         (h', await (client_update client
                       {| u_index := ITEMS_INDEX env; u_id := itemId; u_type := "doc";
                          u__source := true; u_body_doc := VRef lpatch |} h'))
       ∧ read h' (VRef lpatch) "properties" = Ok (VRef lp)
       ∧ h' !! lp = Some (CObj props')
       ∧ get props' "updated" = Some (VStr now)
       ∧ ∀ k, k ≠ "updated" → get props' k = get props k)
  ∧ (truthy_val (properties_of patch) = false →
     ∃ h' lr,
       editPartialItem env (Some client) now h itemId (VRef lpatch) =
         (h', await (client_update client
                       {| u_index := ITEMS_INDEX env; u_id := itemId; u_type := "doc";
                          u__source := true; u_body_doc := VRef lpatch |} h'))
       ∧ read h' (VRef lpatch) "properties" = Ok (VRef lr)
       ∧ h' !! lr = Some (CObj [("updated", VStr now)]))
  ∧ (∀ v,
       get patch "properties" = Some v → truthy_val v = true → (∀ l, v ≠ VRef l) →
       ∃ h',
         editPartialItem env (Some client) now h itemId (VRef lpatch) =
           (h', await (client_update client
                         {| u_index := ITEMS_INDEX env; u_id := itemId; u_type := "doc";
                            u__source := true; u_body_doc := VRef lpatch |} h'))
         ∧ h' !! lpatch = Some (CObj patch)
         ∧ read h' (VRef lpatch) "properties" = Ok v)
  ∧ (∀ lp elems props,
       get patch "properties" = Some (VRef lp) → h !! lp = Some (CArr elems props) →
       ∃ h',
         editPartialItem env (Some client) now h itemId (VRef lpatch) =
           (h', await (client_update client
                         {| u_index := ITEMS_INDEX env; u_id := itemId; u_type := "doc";
                            u__source := true; u_body_doc := VRef lpatch |} h'))
         ∧ read h' (VRef lpatch) "properties" = Ok (VRef lp)
         ∧ h' !! lp = Some (CArr elems (put props "updated" (VStr now)))).
Proof.
  intros Hpatch. split; [|split; [|split]].
  - intros lp props Hprops Hlp.
    exists (<[lp := CObj (put props "updated" (VStr now))]>
              (alloc h (CObj [("updated", VStr now)])).2), (put props "updated" (VStr now)).
    split; [by rewrite (editPartialItem_properties_present env (Some client) now h itemId
                          lpatch patch lp props)|].
    split; [|split; [apply lookup_insert_eq|split; [apply get_put_eq|]]].
    + apply (read_patch_after_update _ lpatch patch lp (CObj props) _ (VStr now));
        [by apply alloc_preserves | done | by apply alloc_preserves |].
      intros ->. by assert (props = patch) as -> by congruence.
    + intros k Hk. by apply get_put_ne.
  - intros Hfalsy.
    exists (<[lpatch := CObj (put patch "properties"
                                  (VRef (alloc h (CObj [("updated", VStr now)])).1))]>
              (alloc h (CObj [("updated", VStr now)])).2),
           (alloc h (CObj [("updated", VStr now)])).1.
    split; [by rewrite (editPartialItem_properties_falsy env (Some client) now h itemId
                          lpatch patch)|].
    split.
    + rewrite (read_object _ lpatch (put patch "properties"
                                       (VRef (alloc h (CObj [("updated", VStr now)])).1)))
        by apply lookup_insert_eq.
      by rewrite get_put_eq.
    + rewrite lookup_insert_ne; [apply alloc_lookup|].
      intros Heq. pose proof (alloc_fresh h (CObj [("updated", VStr now)])) as Hf.
      rewrite <- Heq in Hf. congruence.
  - intros v Hprops Htruthy Hprim.
    pose proof (alloc_preserves h (CObj [("updated", VStr now)]) lpatch _ Hpatch) as H1.
    exists (alloc h (CObj [("updated", VStr now)])).2.
    split; [by rewrite (editPartialItem_properties_primitive env (Some client) now h itemId
                          lpatch patch v)|].
    split; [done|]. by rewrite (read_object _ lpatch patch "properties" H1), Hprops.
  - intros lp elems props Hprops Hlp.
    exists (<[lp := CArr elems (put props "updated" (VStr now))]>
              (alloc h (CObj [("updated", VStr now)])).2).
    split; [by rewrite (editPartialItem_properties_array env (Some client) now h itemId
                          lpatch patch lp elems props)|].
    split; [|apply lookup_insert_eq].
    apply (read_patch_after_update _ lpatch patch lp (CArr elems props) _ (VStr now));
      [by apply alloc_preserves | done | by apply alloc_preserves |].
    intros ->. congruence.
Qed.

Lemma editPartialItem_sent_document_witness :
  (∃ h' props',
     (editPartialItem default_env (Some empty_engine) "2026-01-01T00:00:00.000Z"
        patch_store_nested (VStr "item-1") (VRef 1%positive)).1 = h'
     ∧ read h' (VRef 1%positive) "properties" = Ok (VRef 2%positive)
     ∧ h' !! 2%positive = Some (CObj props')
     ∧ get props' "updated" = Some (VStr "2026-01-01T00:00:00.000Z")
     ∧ get props' "status" = Some (VStr "archived"))
  ∧ (∃ h' lr,
       (editPartialItem default_env (Some empty_engine) "2026-01-01T00:00:00.000Z"
          patch_store_flat (VStr "item-1") (VRef 1%positive)).1 = h'
       ∧ read h' (VRef 1%positive) "properties" = Ok (VRef lr)
       ∧ h' !! lr = Some (CObj [("updated", VStr "2026-01-01T00:00:00.000Z")])).
Proof.
  split.
  - destruct (proj1 (editPartialItem_sent_document default_env empty_engine
                       "2026-01-01T00:00:00.000Z" patch_store_nested (VStr "item-1")
                       1%positive [("properties", VRef 2%positive)] eq_refl)
                    2%positive [("status", VStr "archived"); ("updated", VStr "old")]
                    eq_refl eq_refl)
      as (h' & props' & Hedit & Hread & Hprops & Hupdated & Hkept).
    exists h', props'. rewrite Hedit.
    split; [reflexivity|]. split; [exact Hread|]. split; [exact Hprops|].
    split; [exact Hupdated|].
    rewrite (Hkept "status" ltac:(discriminate)). reflexivity.
  - destruct (proj1 (proj2 (editPartialItem_sent_document default_env empty_engine
                       "2026-01-01T00:00:00.000Z" patch_store_flat (VStr "item-1")
                       1%positive [("status", VStr "archived")] eq_refl)) eq_refl)
      as (h' & lr & Hedit & Hread & Hnew).
    exists h', lr. rewrite Hedit.
    split; [reflexivity|]. split; [exact Hread | exact Hnew].
Defined.

(** C5, as stated, fails: the patch [{properties: "archived"}] has no
    properties mapping, and the document sent is that patch, its
    [properties] still the string: no object holding the timestamp. *)
Lemma editPartialItem_primitive_not_stamped :
  ∃ h',
    editPartialItem default_env (Some empty_engine) "2026-01-01T00:00:00.000Z"
      patch_store_primitive (VStr "item-1") (VRef 1%positive) = (h', Ok Undefined)
    ∧ read h' (VRef 1%positive) "properties" = Ok (VStr "archived").
Proof. eexists. split; vm_compute; reflexivity. Qed.

(** C10, as amended: the partial update mutates the object its caller
    passed whenever the patch's [properties] is an object, an array, or
    absent or falsy.  A properties mapping is updated in place, [updated]
    being set to the server timestamp whatever value the caller had put
    there (on an array, as a named property); with [properties] absent or
    falsy, the patch object itself gets a new [properties] object holding
    the timestamp.  This happens whether or not the update call can then
    be issued.  A patch whose [properties] is a truthy primitive is not
    mutated: no object of the store changes. *)
Theorem editPartialItem_mutates_patch env esClient now h itemId lpatch patch :
  h !! lpatch = Some (CObj patch) →
  let h' := (editPartialItem env esClient now h itemId (VRef lpatch)).1 in
  (∀ lp props,
     get patch "properties" = Some (VRef lp) → h !! lp = Some (CObj props) →
     h' !! lp = Some (CObj (put props "updated" (VStr now)))
     ∧ get (put props "updated" (VStr now)) "updated" = Some (VStr now)
     ∧ read h' (VRef lpatch) "properties" = Ok (VRef lp))
  ∧ (truthy_val (properties_of patch) = false →
     ∃ lr, h !! lr = None
           ∧ h' !! lpatch = Some (CObj (put patch "properties" (VRef lr)))
           ∧ h' !! lr = Some (CObj [("updated", VStr now)]))
  ∧ (∀ lp elems props,
       get patch "properties" = Some (VRef lp) → h !! lp = Some (CArr elems props) →
       h' !! lp = Some (CArr elems (put props "updated" (VStr now)))
       ∧ get (put props "updated" (VStr now)) "updated" = Some (VStr now))
  ∧ (∀ v,
       get patch "properties" = Some v → truthy_val v = true → (∀ l, v ≠ VRef l) →
       ∀ l c, h !! l = Some c → h' !! l = Some c).
Proof.
  intros Hpatch h'. split; [|split; [|split]].
  - intros lp props Hprops Hlp. subst h'.
    rewrite (editPartialItem_properties_present env esClient now h itemId lpatch patch lp props)
      by done.
    cbn [fst]. split; [apply lookup_insert_eq|]. split; [apply get_put_eq|].
    apply (read_patch_after_update _ lpatch patch lp (CObj props) _ (VStr now));
      [by apply alloc_preserves | done | by apply alloc_preserves |].
    intros ->. by assert (props = patch) as -> by congruence.
  - intros Hfalsy. subst h'.
    rewrite (editPartialItem_properties_falsy env esClient now h itemId lpatch patch) by done.
    cbn [fst]. exists (alloc h (CObj [("updated", VStr now)])).1.
    split; [apply alloc_fresh|]. split; [apply lookup_insert_eq|].
    rewrite lookup_insert_ne; [apply alloc_lookup|].
    intros Heq. pose proof (alloc_fresh h (CObj [("updated", VStr now)])) as Hf.
    rewrite <- Heq in Hf. congruence.
  - intros lp elems props Hprops Hlp. subst h'.
    rewrite (editPartialItem_properties_array env esClient now h itemId lpatch patch lp
               elems props) by done.
    cbn [fst]. split; [apply lookup_insert_eq | apply get_put_eq].
  - intros v Hprops Htruthy Hprim l c Hl. subst h'.
    rewrite (editPartialItem_properties_primitive env esClient now h itemId lpatch patch v)
      by done.
    cbn [fst]. by apply alloc_preserves.
Qed.

Lemma editPartialItem_mutates_patch_witness :
  patch_store_nested !! 2%positive =
    Some (CObj [("status", VStr "archived"); ("updated", VStr "old")])
  ∧ (editPartialItem default_env None "2026-01-01T00:00:00.000Z"
       patch_store_nested (VStr "item-1") (VRef 1%positive)).1 !! 2%positive =
    Some (CObj [("status", VStr "archived"); ("updated", VStr "2026-01-01T00:00:00.000Z")]).
Proof.
  split; [reflexivity|].
  apply (proj1 (editPartialItem_mutates_patch default_env None "2026-01-01T00:00:00.000Z"
                  patch_store_nested (VStr "item-1") 1%positive
                  [("properties", VRef 2%positive)] eq_refl)
               2%positive [("status", VStr "archived"); ("updated", VStr "old")]
               eq_refl eq_refl).
Defined.

(** C10, as stated, fails: after the partial update with the patch
    [{properties: "archived"}], the caller's patch object is what it
    was, and so is every other object of the store: nothing was written
    into it. *)
Lemma editPartialItem_primitive_patch_untouched :
  let h' := (editPartialItem default_env (Some empty_engine) "2026-01-01T00:00:00.000Z"
               patch_store_primitive (VStr "item-1") (VRef 1%positive)).1 in
  h' !! 1%positive = Some (CObj [("properties", VStr "archived")])
  ∧ h' !! 1%positive = patch_store_primitive !! 1%positive
  ∧ h' !! 2%positive = patch_store_primitive !! 2%positive.
Proof. cbv zeta. repeat split; vm_compute; reflexivity. Qed.

(** ** Index lifecycle *)

(** C7, on the code: the client's [indices] namespace defines [exists],
    not [exits]; the existence probe is therefore a call of [undefined],
    and [create_index] rejects with a TypeError for every index name,
    before any existence check or creation and outside the [try]. *)
Theorem create_index_rejects env collections_mapping items_mapping client index :
  get (indices client) "exits" = None →
  create_index env collections_mapping items_mapping (Some client) index =
    (Throw (TypeError "client.indices.exits is not a function"), []).
Proof.
  intros Hmissing. unfold create_index, indices_call. simpl. by rewrite Hmissing.
Qed.

Lemma create_index_rejects_witness :
  create_index default_env (Obj []) (Obj []) (Some empty_engine) "collections" =
    (Throw (TypeError "client.indices.exits is not a function"), []).
Proof.
  apply (create_index_rejects default_env (Obj []) (Obj []) empty_engine "collections").
  reflexivity.
Defined.

(** Behind the probe: were it defined and falsy, the creation would be
    attempted and its failure logged and swallowed. *)
Lemma create_index_behind_probe env collections_mapping items_mapping client index
    probe create found e :
  get (indices client) "exits" = Some probe →
  probe (Obj [("index", Str index)]) = Promise (Ok found) → truthy found = false →
  get (indices client) "create" = Some create →
  create (Obj [("index", Str (COLLECTIONS_INDEX env));
               ("body", if String.eqb index "collections"
                        then collections_mapping else items_mapping)]) = Promise (Throw e) →
  create_index env collections_mapping items_mapping (Some client) index =
    (Ok tt, [LogDebugError ("Error creating index " +:+ index +:+ ", already created: ") e]).
Proof.
  intros Hprobe Hfound Hfalsy Hcreate Hfail.
  unfold create_index, indices_call. simpl.
  rewrite Hprobe. simpl. rewrite Hfound. simpl. rewrite Hfalsy. simpl.
  rewrite Hcreate. simpl. by rewrite Hfail.
Qed.

(** ** The record normaliser *)







(** A scheme that begins with [http] without being http or https is
    handed to the HTTP client, whose refusal is the failure. *)
Lemma http_prefixed_scheme_refused_by_client :
  stacItemFromSnsMessage simple_URL echo_getObjectJson echo_got
    (Obj [("href", Str "httpx://example.com/item.json")]) =
    Throw (External "UnsupportedProtocolError").
Proof. reflexivity. Qed.

(** A failed dereference fails the batch and the handler before any
    ingest. *)
Lemma sequence_throw {A} (rs : list (result A)) e :
  Throw e ∈ rs → ∃ e', sequence rs = Throw e'.
Proof.
  induction rs as [|r rs IH]; [intros H; by apply elem_of_nil in H|].
  intros H. apply elem_of_cons in H as [<-|H]; simpl; [eauto|].
  destruct r; simpl; [|eauto].
  destruct (IH H) as [e' ->]. simpl. eauto.
Qed.

Lemma handler_aborts new_URL getObjectJson got_get_json JSON_parse settles_first
    createIndex ingest fields e :
  truthy (prop fields "create_indices") = false →
  includes (keys fields) "Records" = true →
  stacItemsFromSqsEvent new_URL getObjectJson got_get_json JSON_parse settles_first
    (Obj fields) = Throw e →
  handler new_URL getObjectJson got_get_json JSON_parse settles_first createIndex ingest
    (Obj fields) = Throw e.
Proof.
  intros Hcreate Hsqs Hfail. unfold handler, isSqsEvent. simpl.
  rewrite Hcreate. simpl. rewrite Hsqs. simpl. by rewrite Hfail.
Qed.

(** ** Ingest *)

Lemma pushed_by_ingestItems_singleton item :
  pushed_by_ingestItems [item] = pushed_by_ingestItem item.
Proof. reflexivity. Qed.

Lemma dot_defined item name :
  item ≠ Undefined → item ≠ Null → ∃ v, dot item name = Ok v.
Proof. intros Hu Hn. destruct item; simpl; eauto; done. Qed.

Lemma piped_streams {Stage : Type}
    (pump : option Stage → option Stage → list value → result (option (option error)))
    (stream : unit → result (option (StreamPair Stage))) s pushed :
  stream tt = Ok (Some s) →
  piped pump stream pushed = pump (toDB s) (dbStream s) pushed.
Proof. intros Hs. unfold piped. by rewrite Hs. Qed.

(** C9, as amended: for an item that is neither undefined nor null and
    any stream factory and pipeline, [ingestItem item] and
    [ingestItems [item]] push the same chunks - the item, then end of
    stream - into the pipeline the factory yields and settle alike: a
    failing factory is their rejection; otherwise they resolve, with
    true, exactly when [pump] calls back without an error, reject exactly
    with the error [pump] calls back with or throws, and stay pending
    exactly when [pump] never calls back.  Only their log output
    differs. *)
Theorem ingestItem_as_ingestItems {Stage : Type}
    (pump : option Stage → option Stage → list value → result (option (option error)))
    (stream : unit → result (option (StreamPair Stage))) (item : value) :
  item ≠ Undefined → item ≠ Null →
  pushed_by_ingestItems [item] = pushed_by_ingestItem item
  ∧ pushed_by_ingestItem item = [item; Null]
  ∧ (ingestItem pump stream item).1 = (ingestItems pump stream [item]).1
  ∧ (∀ e, stream tt = Throw e → (ingestItem pump stream item).1 = Rejected e)
  ∧ (stream tt = Ok None → ∃ msg, (ingestItem pump stream item).1 = Rejected (TypeError msg))
  ∧ (∀ s, stream tt = Ok (Some s) →
       ((ingestItem pump stream item).1 = Resolved true ↔
        pump (toDB s) (dbStream s) [item; Null] = Ok (Some None))
       ∧ (∀ e, (ingestItem pump stream item).1 = Rejected e ↔
               pump (toDB s) (dbStream s) [item; Null] = Ok (Some (Some e))
               ∨ pump (toDB s) (dbStream s) [item; Null] = Throw e)
       ∧ ((ingestItem pump stream item).1 = Pending ↔
          pump (toDB s) (dbStream s) [item; Null] = Ok None)).
Proof.
  intros Hu Hn. destruct (dot_defined item "id" Hu Hn) as [id Hid].
  split; [reflexivity|]. split; [reflexivity|].
  unfold ingestItem, ingestItems.
  rewrite pushed_by_ingestItems_singleton.
  change (pushed_by_ingestItem item) with [item; Null].
  split; [|split; [|split]].
  - destruct (piped pump stream [item; Null]) as [[[e|]|]|e]; by rewrite ?Hid.
  - intros e He. unfold piped. by rewrite He.
  - intros Hnone. unfold piped. rewrite Hnone. simpl. eauto.
  - intros s Hs. rewrite (piped_streams pump stream s _ Hs).
    destruct (pump (toDB s) (dbStream s) [item; Null]) as [[[e|]|]|e]; rewrite ?Hid; simpl.
    + split; [done|]. split; [|done].
      intros e'. split; [intros H; inversion H; by left|].
      intros [H|H]; by inversion H.
    + split; [done|]. split; [|done]. intros e'. split; [done | intros [H|H]; done].
    + split; [done|]. split; [|done]. intros e'. split; [done | intros [H|H]; done].
    + split; [done|]. split; [|done].
      intros e'. split; [intros H; inversion H; by right|].
      intros [H|H]; by inversion H.
Qed.

Lemma ingestItem_as_ingestItems_witness :
  (ingestItem confirming_pump confirming_stream (Obj [("id", Str "item-1")])).1 = Resolved true
  ∧ (ingestItems confirming_pump confirming_stream [Obj [("id", Str "item-1")]]).1
    = Resolved true.
Proof.
  destruct (ingestItem_as_ingestItems confirming_pump confirming_stream
              (Obj [("id", Str "item-1")]) ltac:(discriminate) ltac:(discriminate))
    as (_ & _ & Hsame & _ & _ & Hpiped).
  destruct (Hpiped {| toDB := Some tt; dbStream := Some tt |} eq_refl) as (Hresolved & _ & _).
  assert ((ingestItem confirming_pump confirming_stream (Obj [("id", Str "item-1")])).1
          = Resolved true) as H by (apply Hresolved; reflexivity).
  split; [exact H | rewrite <- Hsame; exact H].
Defined.

(** C9, as stated, fails: with a null item and a pipeline that confirms
    the flush, [ingestItems [null]] resolves with true, while
    [ingestItem null] breaks in its callback on reading [item.id] and
    never settles. *)
Lemma ingestItem_null_item_differs :
  (ingestItems confirming_pump confirming_stream [Null]).1 = Resolved true
  ∧ (ingestItem confirming_pump confirming_stream Null).1 ≠ Resolved true
  ∧ (ingestItem confirming_pump confirming_stream Null).1 ≠
      (ingestItems confirming_pump confirming_stream [Null]).1.
Proof. repeat split; discriminate. Qed.

(** The logs of the two differ. *)
Lemma ingestItem_logs_differ :
  (ingestItem confirming_pump confirming_stream (Obj [("id", Str "item-1")])).2
    = [LogInfo "Ingested item item-1"]
  ∧ (ingestItems confirming_pump confirming_stream [Obj [("id", Str "item-1")]]).2
    = [LogDebug "Ingested item"].
Proof. split; reflexivity. Qed.

(** * Further properties of the code *)

(** ** The filter's clauses *)

Lemma queryReducer_app query accumulator property :
  queryReducer query accumulator property =
    (accumulator ++ queryReducer query [] property)%list.
Proof.
  unfold queryReducer. destruct (get query property) as [operatorsObject|];
    [|by rewrite app_nil_r].
  destruct (buildRangeQuery property (keys operatorsObject) operatorsObject);
    destruct (includes (keys operatorsObject) "eq");
    [| destruct (includes (keys operatorsObject) "in") | |
     destruct (includes (keys operatorsObject) "in")];
    unfold push_if, push; simpl; by rewrite <- ?app_assoc, ?app_nil_r.
Qed.

Lemma fold_queryReducer query properties accumulator :
  fold_left (queryReducer query) properties accumulator =
    (accumulator ++ flat_map (queryReducer query []) properties)%list.
Proof.
  revert accumulator. induction properties as [|property properties IH]; intros acc; simpl.
  - by rewrite app_nil_r.
  - rewrite IH, (queryReducer_app query acc property). by rewrite <- app_assoc.
Qed.

(** X1. The clauses compiled from the filter are, property by property in
    [Object.keys] order, what each property contributes on its own, and a
    property contributes at most two clauses. *)
Theorem queryClauses_per_property query :
  queryClauses query = flat_map (queryReducer query []) (keys query)
  ∧ ∀ property, (length (queryReducer query [] property) ≤ 2)%nat.
Proof.
  split; [apply (fold_queryReducer query (keys query) [])|].
  intros property. unfold queryReducer.
  destruct (get query property) as [operatorsObject|]; simpl; [|lia].
  destruct (buildRangeQuery property (keys operatorsObject) operatorsObject);
    destruct (includes (keys operatorsObject) "eq");
    try destruct (includes (keys operatorsObject) "in"); simpl; lia.
Qed.

Lemma buildRangeQuery_kind property operatorsObject clause :
  buildRangeQuery property (keys operatorsObject) operatorsObject = Some clause →
  clause_kind clause = Some "range".
Proof.
  rewrite buildRangeQuery_supplied.
  destruct (_ || _ || _ || _); intros H; inversion H. reflexivity.
Qed.

(** X2. When a property has [eq], its exact-match clause comes first and is
    followed only by its range clause, if any: an [in] on the same
    property compiles to nothing. *)
Theorem queryReducer_eq_over_in (query : dict obj) property (operatorsObject : obj) operand :
  get query property = Some operatorsObject →
  get operatorsObject "eq" = Some operand →
  queryReducer query [] property =
    Obj [("term", Obj [("properties." +:+ property, operand)])]
      :: option_list (buildRangeQuery property (keys operatorsObject) operatorsObject)
  ∧ Forall (fun clause => clause_kind clause ≠ Some "terms")
           (queryReducer query [] property).
Proof.
  intros Hq Heq.
  assert (queryReducer query [] property =
            Obj [("term", Obj [("properties." +:+ property, operand)])]
              :: option_list (buildRangeQuery property (keys operatorsObject) operatorsObject))
    as Hshape.
  { unfold queryReducer. rewrite Hq, includes_keys, Heq. unfold prop. rewrite Heq. simpl.
    by destruct (buildRangeQuery property (keys operatorsObject) operatorsObject). }
  split; [exact Hshape|]. rewrite Hshape.
  apply Forall_cons. split; [discriminate|].
  destruct (buildRangeQuery property (keys operatorsObject) operatorsObject) as [clause|] eqn:Hr;
    simpl; [|constructor].
  apply Forall_cons. split; [|constructor].
  by rewrite (buildRangeQuery_kind property operatorsObject clause Hr).
Qed.

Lemma queryReducer_eq_over_in_witness :
  queryReducer [("foo", [("in", Arr [Num 1; Num 2]); ("eq", Num 1); ("lt", Num 9)])] [] "foo" =
    [Obj [("term", Obj [("properties.foo", Num 1)])];
     Obj [("range", Obj [("properties.foo", Obj [("lt", Num 9)])])]].
Proof.
  apply (proj1 (queryReducer_eq_over_in
                  [("foo", [("in", Arr [Num 1; Num 2]); ("eq", Num 1); ("lt", Num 9)])]
                  "foo" [("in", Arr [Num 1; Num 2]); ("eq", Num 1); ("lt", Num 9)] (Num 1)
                  eq_refl eq_refl)).
Defined.

Lemma unsupported_includes (operatorsObject : obj) operator :
  (∀ k, k ∈ keys operatorsObject → k ∉ supported_operators) →
  operator ∈ supported_operators →
  includes (keys operatorsObject) operator = false.
Proof.
  intros Hnone Hop. destruct (includes (keys operatorsObject) operator) eqn:E; [|done].
  apply includes_true in E. by destruct (Hnone operator E).
Qed.

(** X3. Operators the compiler does not know are ignored without an error:
    a property that has none of eq, in, gt, lt, gte, lte adds no clause,
    and a filter made only of such properties compiles to no clause at
    all. *)
Theorem queryClauses_unsupported_ignored (query : dict obj) :
  (∀ property (operatorsObject : obj) k,
     get query property = Some operatorsObject → k ∈ keys operatorsObject →
     k ∉ supported_operators) →
  (∀ accumulator property, queryReducer query accumulator property = accumulator)
  ∧ queryClauses query = []
  ∧ must_of (buildQuery (with_query no_parameters query)) = [].
Proof.
  intros Hnone.
  assert (∀ accumulator property, queryReducer query accumulator property = accumulator)
    as Hstep.
  { intros acc property. unfold queryReducer.
    destruct (get query property) as [operatorsObject|] eqn:Hq; [|done].
    pose proof (fun k => Hnone property operatorsObject k Hq) as Hops.
    unfold buildRangeQuery.
    rewrite !(unsupported_includes operatorsObject) by (done || (unfold supported_operators; set_solver)).
    done. }
  assert (queryClauses query = []) as Hclauses.
  { unfold queryClauses. generalize (keys query). intros properties.
    induction properties as [|property properties IH]; simpl; [done|].
    by rewrite Hstep. }
  split; [exact Hstep|]. split; [exact Hclauses|].
  unfold buildQuery, must_of. simpl. by rewrite Hclauses.
Qed.

Lemma queryClauses_unsupported_ignored_witness :
  must_of (buildQuery (with_query no_parameters [("foo", [("neq", Num 1)])])) = [].
Proof.
  apply (queryClauses_unsupported_ignored [("foo", [("neq", Num 1)])]).
  intros property operatorsObject k Hq Hk.
  simpl in Hq. destruct (String.eqb property "foo"); [|discriminate Hq].
  inversion Hq; subst. simpl in Hk.
  apply list_elem_of_singleton in Hk. subst k.
  apply (bool_decide_unpack _). vm_compute. exact I.
Defined.

(** ** Datetime, both ways *)

Lemma split_not_nil sep s : split sep s ≠ [].
Proof.
  destruct s as [|c rest]; simpl; [done|].
  destruct (Ascii.eqb c sep); [done|]. by destruct (split sep rest).
Qed.

Lemma join_split sep s : join (String sep "") (split sep s) = s.
Proof.
  induction s as [|c rest IH]; simpl; [done|].
  destruct (Ascii.eqb_spec c sep) as [->|Hne].
  - pose proof (split_not_nil sep rest) as Hnil.
    destruct (split sep rest) as [|hd tl]; [done|]. simpl in *. by rewrite IH.
  - pose proof (split_not_nil sep rest) as Hnil.
    destruct (split sep rest) as [|hd tl]; [done|]. simpl in *.
    destruct tl; simpl in *; by rewrite <- IH.
Qed.

Lemma split_parts_no_sep sep s :
  Forall (fun part => count_sep sep part = 0%nat) (split sep s).
Proof.
  induction s as [|c rest IH]; simpl; [by repeat constructor|].
  destruct (Ascii.eqb c sep) eqn:Ec; [by constructor|].
  destruct (split sep rest) as [|hd tl]; [repeat constructor; simpl; by rewrite Ec|].
  apply Forall_cons in IH as [Hhd Htl]. constructor; [|done]. simpl. by rewrite Ec.
Qed.

(** X4. The datetime clause is a range exactly when the value has one
    separator, and then its two bounds, joined by the separator, are the
    value; with any other non-empty value it is the exact match; with an
    empty or absent value there is no clause. *)
Theorem buildDatetimeQuery_inverse parameters :
  (∀ a b,
     buildDatetimeQuery parameters =
       Some (Obj [("range",
                   Obj [("properties.datetime", Obj [("gte", Str a); ("lte", Str b)])])]) →
     datetime parameters = Some (a +:+ "/" +:+ b)
     ∧ count_sep "/" a = 0%nat ∧ count_sep "/" b = 0%nat)
  ∧ (∀ operand,
       buildDatetimeQuery parameters =
         Some (Obj [("term", Obj [("properties.datetime", operand)])]) →
       ∃ s, operand = Str s ∧ datetime parameters = Some s ∧ s ≠ ""
            ∧ count_sep "/" s ≠ 1%nat)
  ∧ (buildDatetimeQuery parameters = None ↔
     datetime parameters = None ∨ datetime parameters = Some "").
Proof.
  unfold buildDatetimeQuery.
  destruct (datetime parameters) as [s|]; [|repeat split; intros; try done; by left].
  simpl. destruct (String.eqb_spec s "") as [->|Hs]; simpl.
  { repeat split; intros; try done; by right. }
  pose proof (split_length "/" s) as Hlen.
  pose proof (join_split "/" s) as Hjoin.
  pose proof (split_parts_no_sep "/" s) as Hparts.
  destruct (Nat.eqb_spec (length (split "/" s)) 2) as [H2|H2].
  - destruct (split "/" s) as [|x [|y [|z tl]]]; try discriminate H2.
    simpl in Hjoin. apply Forall_cons in Hparts as [Hx Hparts].
    apply Forall_cons in Hparts as [Hy _].
    split; [|split].
    + intros a b H. inversion H; subst a b. by rewrite Hjoin.
    + intros operand H. inversion H.
    + split; [done | intros [H|H]; [done | inversion H; congruence]].
  - split; [|split].
    + intros a b H. inversion H.
    + intros operand H. inversion H; subst. exists s. repeat split; [done | lia].
    + split; [done | intros [H|H]; [done | inversion H; congruence]].
Qed.

(** ** Identifier shortcuts *)

(** X5. A request with a truthy [ids] compiles to the multi-id lookup and,
    failing that, one with a truthy [id] to the exact-id filter; either
    way no other filter of the request has any effect on the body, which
    depends on the identifiers and the sort rules alone. *)
Theorem searchBody_shortcuts parameters parameters' :
  sortby parameters = sortby parameters' →
  (present (ids parameters) = true → ids parameters' = ids parameters →
   searchBody parameters = searchBody parameters'
   ∧ path (searchBody parameters) ["query"; "ids"; "values"]
     = default Undefined (ids parameters)
   ∧ must_of (searchBody parameters) = [])
  ∧ (present (ids parameters) = false → present (ids parameters') = false →
     present (id parameters) = true → id parameters' = id parameters →
     searchBody parameters = searchBody parameters'
     ∧ path (searchBody parameters) ["query"; "constant_score"; "filter"; "term"; "id"]
       = default Undefined (id parameters)
     ∧ must_of (searchBody parameters) = []).
Proof.
  intros Hsort. split.
  - intros Hids Hsame. unfold searchBody, buildSort. rewrite Hsame, Hids, Hsort.
    repeat split.
  - intros Hids Hids' Hid Hsame. unfold searchBody, buildSort.
    rewrite Hids, Hids', Hsame, Hid, Hsort. repeat split.
Qed.

Lemma searchBody_shortcuts_witness :
  searchBody (with_ids (with_datetime no_parameters "2020-01-01") (Arr [])) =
    searchBody (with_ids no_parameters (Arr [])).
Proof.
  apply (proj1 (searchBody_shortcuts
                  (with_ids (with_datetime no_parameters "2020-01-01") (Arr []))
                  (with_ids no_parameters (Arr [])) eq_refl)); reflexivity.
Defined.

(** ** Sort *)

(** X6. The compiled sort is never empty: the rules of the request, one
    clause each in their order, or the descending datetime sort when the
    request has no rule. *)
Theorem buildSort_rules parameters :
  buildSort parameters ≠ []
  ∧ (∀ rules, sortby parameters = Some rules → rules ≠ [] →
       length (buildSort parameters) = length rules
       ∧ ∀ i rule, rules !! i = Some rule →
           buildSort parameters !! i =
             Some (Obj [(field rule, Obj [("order", direction rule)])]))
  ∧ (sortby parameters = None ∨ sortby parameters = Some [] →
     buildSort parameters = [Obj [("properties.datetime", Obj [("order", Str "desc")])]]).
Proof.
  unfold buildSort. split; [|split].
  - by destruct (sortby parameters) as [[|rule rules]|].
  - intros rules -> Hne. destruct rules as [|rule rules]; [done|].
    split; [by rewrite length_map|].
    intros i r Hi.
    change (map ?f (rule :: rules)) with (f <$> (rule :: rules)).
    rewrite list_lookup_fmap. by rewrite Hi.
  - by intros [->| ->].
Qed.

(** ** Field projection *)

Lemma includes_false xs x : includes xs x = false ↔ x ∉ xs.
Proof.
  rewrite <- includes_true. destruct (includes xs x); split; congruence.
Qed.

Lemma fold_add_elem (added : list string) (start : list string) x :
  x ∈ fold_left (fun acc field => if includes acc field then acc else push acc field)
                added start
  ↔ x ∈ start ∨ x ∈ added.
Proof.
  revert start. induction added as [|f added IH]; intros start; simpl.
  - rewrite elem_of_nil. tauto.
  - rewrite IH, elem_of_cons. destruct (includes start f) eqn:E.
    + apply includes_true in E. split; [tauto|]. intros [H|[->|H]]; tauto.
    + unfold push. rewrite elem_of_app, list_elem_of_singleton. tauto.
Qed.

Lemma fold_add_NoDup (added : list string) (start : list string) :
  NoDup start →
  NoDup (fold_left (fun acc field => if includes acc field then acc else push acc field)
                   added start).
Proof.
  revert start. induction added as [|f added IH]; intros start Hnd; simpl; [done|].
  apply IH. destruct (includes start f) eqn:E; [done|].
  apply includes_false in E. unfold push. apply NoDup_app.
  split; [done|]. split; [|apply NoDup_singleton].
  intros x Hx Hf. apply list_elem_of_singleton in Hf. by subst.
Qed.

Lemma list_filter_elem (P : string → bool) xs x :
  x ∈ List.filter P xs ↔ x ∈ xs ∧ P x = true.
Proof. rewrite !list_elem_of_In. apply filter_In. Qed.

Lemma list_filter_NoDup (P : string → bool) xs : NoDup xs → NoDup (List.filter P xs).
Proof.
  induction 1 as [|x xs Hx Hnd IH]; simpl; [constructor|].
  destruct (P x) eqn:E; [|done]. constructor; [|done].
  rewrite list_filter_elem. tauto.
Qed.

Lemma nonempty_false {A} (o : option (list A)) : nonempty o = false → default [] o = [].
Proof. by destruct o as [[|x xs]|]. Qed.

Lemma baseline_fields_NoDup : NoDup baseline_fields.
Proof. apply (bool_decide_unpack _). vm_compute. exact I. Qed.

Lemma buildFieldsFilter_fields parameters fs :
  fields parameters = Some (Some fs) →
  (buildFieldsFilter parameters).2 = default [] (exclude fs)
  ∧ ∀ f, f ∈ (buildFieldsFilter parameters).1 ↔
         (f ∈ baseline_fields ∨ f ∈ default [] (include fs)) ∧ f ∉ default [] (exclude fs).
Proof.
  intros Hf. unfold buildFieldsFilter. rewrite Hf. fold baseline_fields.
  assert (∀ f, f ∈ (if nonempty (include fs)
                    then fold_left (fun acc field =>
                                      if includes acc field then acc else push acc field)
                                   (default [] (include fs)) baseline_fields
                    else baseline_fields)
               ↔ f ∈ baseline_fields ∨ f ∈ default [] (include fs)) as Hinc.
  { intros f. destruct (include fs) as [[|i rest]|]; simpl;
      rewrite ?elem_of_nil; try tauto.
    apply (fold_add_elem (i :: rest) baseline_fields f). }
  destruct (nonempty (exclude fs)) eqn:Hex; cbn [fst snd].
  - split; [done|]. intros f. rewrite list_filter_elem, Hinc, negb_true_iff, includes_false.
    tauto.
  - rewrite (nonempty_false _ Hex). split; [done|]. intros f. rewrite Hinc, elem_of_nil. tauto.
Qed.

(** X7. With a fields object in the request, a field is projected exactly
    when it is a baseline field or an included one and is not excluded,
    and the exclude list is carried as given. *)
Theorem buildFieldsFilter_members parameters fs :
  fields parameters = Some (Some fs) →
  (buildFieldsFilter parameters).2 = default [] (exclude fs)
  ∧ ∀ f, f ∈ (buildFieldsFilter parameters).1 ↔
         (f ∈ baseline_fields ∨ f ∈ default [] (include fs)) ∧ f ∉ default [] (exclude fs).
Proof. apply buildFieldsFilter_fields. Qed.

Lemma buildFieldsFilter_members_witness :
  let projected := (buildFieldsFilter projection_example).1 in
  ("bbox" ∉ projected) ∧ ("properties.eo:cloud_cover" ∈ projected).
Proof.
  pose proof (proj2 (buildFieldsFilter_members projection_example
                       {| include := Some ["properties.eo:cloud_cover"];
                          exclude := Some ["bbox"] |} eq_refl)) as Hmem.
  split.
  - intros Hin. apply Hmem in Hin as [_ Hout]. apply Hout. simpl. apply list_elem_of_here.
  - apply Hmem. simpl. split.
    + right. apply list_elem_of_here.
    + intros Hin. apply list_elem_of_singleton in Hin. discriminate Hin.
Defined.

(** X8. For every request, the projected include list has no duplicates and
    shares no field with the exclude list. *)
Theorem buildFieldsFilter_disjoint parameters :
  NoDup (buildFieldsFilter parameters).1
  ∧ ∀ f, f ∈ (buildFieldsFilter parameters).1 → f ∉ (buildFieldsFilter parameters).2.
Proof.
  destruct (fields parameters) as [[fs|]|] eqn:Hf.
  - split.
    + unfold buildFieldsFilter. rewrite Hf. fold baseline_fields.
      assert (NoDup (if nonempty (include fs)
                     then fold_left (fun acc field =>
                                       if includes acc field then acc else push acc field)
                                    (default [] (include fs)) baseline_fields
                     else baseline_fields)) as Hnd.
      { destruct (nonempty (include fs));
          [apply fold_add_NoDup|]; apply baseline_fields_NoDup. }
      destruct (nonempty (exclude fs)); simpl; [by apply list_filter_NoDup | done].
    + destruct (buildFieldsFilter_fields parameters fs Hf) as [-> Hmem].
      intros f Hin. by apply Hmem in Hin as [_ Hout].
  - unfold buildFieldsFilter. rewrite Hf. simpl.
    split; [apply baseline_fields_NoDup | intros f _; apply not_elem_of_nil].
  - unfold buildFieldsFilter. rewrite Hf. simpl.
    split; [constructor | intros f _; apply not_elem_of_nil].
Qed.

(** X9. The search parameters carry a source filter only when it is not
    empty; a request without a fields key restricts nothing, and one
    whose fields key is present but empty restricts to the baseline. *)
Theorem searchParams_source_filters parameters index p l :
  sp__sourceIncludes (searchParams parameters index p l) ≠ Some []
  ∧ sp__sourceExcludes (searchParams parameters index p l) ≠ Some []
  ∧ (fields parameters = None →
     sp__sourceIncludes (searchParams parameters index p l) = None
     ∧ sp__sourceExcludes (searchParams parameters index p l) = None)
  ∧ (fields parameters = Some None
     ∨ fields parameters = Some (Some {| include := None; exclude := None |}) →
     sp__sourceIncludes (searchParams parameters index p l) = Some baseline_fields
     ∧ sp__sourceExcludes (searchParams parameters index p l) = None).
Proof.
  unfold searchParams.
  split; [|split; [|split]].
  - destruct (buildFieldsFilter parameters) as [[|i rest] exc]; simpl; done.
  - destruct (buildFieldsFilter parameters) as [inc [|e es]]; simpl; done.
  - intros Hf. unfold buildFieldsFilter. by rewrite Hf.
  - intros [Hf|Hf]; unfold buildFieldsFilter; by rewrite Hf.
Qed.

Lemma searchParams_source_filters_witness :
  sp__sourceIncludes (searchParams no_parameters "*" 1 10) = None
  ∧ sp__sourceExcludes (searchParams no_parameters "*" 1 10) = None.
Proof.
  apply (proj1 (proj2 (proj2 (searchParams_source_filters no_parameters "*" 1 10)))).
  reflexivity.
Defined.

(** ** Pages and the next link *)

(** X10. For every integer page number below 2^53 in magnitude, with
    [page * limit] within 2^53 in magnitude: the response has a next
    link exactly when [page * limit] is below the total and [page] is
    not -1 (whose next page, 0, is falsy), and the link's href is the
    next page number.  For any numbers at all there is never more than
    one link, and its title is next. *)
Theorem searchResponse_next_link p l esResponse :
  Z.abs p < two53 → Z.abs (p * l) ≤ two53 →
  (has_next_link (searchResponse p l esResponse) ↔
   p * l < hits_total esResponse ∧ p ≠ -1)
  ∧ (∀ link, link ∈ links (searchResponse p l esResponse) →
             dot link "href" = Ok (Num (p + 1)))
  ∧ (∀ p' l', (length (links (searchResponse p' l' esResponse)) ≤ 1)%nat
              ∧ ∀ link, link ∈ links (searchResponse p' l' esResponse) →
                        dot link "title" = Ok (Str "next")).
Proof.
  intros Hp Hpl. split; [|split].
  - unfold has_next_link, searchResponse. simpl. unfold js_mul, js_add.
    rewrite (round53_exact (p * l)), (round53_exact (p + 1)) by lia.
    destruct (Z.ltb_spec (p * l) (hits_total esResponse)) as [Hlt|Hge]; simpl.
    + destruct (Z.eqb_spec (p + 1) 0) as [E|E]; simpl.
      * split; [intros (link & Hin & _); by apply elem_of_nil in Hin | lia].
      * split; [intros _; split; [done | lia]|].
        intros _. eexists. split; [apply list_elem_of_here | done].
    + split; [intros (link & Hin & _); by apply elem_of_nil in Hin | lia].
  - unfold searchResponse. simpl. unfold js_add.
    rewrite (round53_exact (p + 1)) by lia.
    destruct (Z.ltb (js_mul p l) (hits_total esResponse)); simpl;
      [|intros link Hin; by apply elem_of_nil in Hin].
    destruct (Z.eqb (p + 1) 0); simpl; intros link Hin;
      [by apply elem_of_nil in Hin|].
    apply list_elem_of_singleton in Hin. by subst.
  - intros p' l'. unfold searchResponse. simpl.
    destruct (Z.ltb (js_mul p' l') (hits_total esResponse)); simpl;
      [|split; [lia | intros link Hin; by apply elem_of_nil in Hin]].
    destruct (Z.eqb (js_add p' 1) 0); simpl;
      [split; [lia | intros link Hin; by apply elem_of_nil in Hin]|].
    split; [lia|]. intros link Hin. apply list_elem_of_singleton in Hin. by subst.
Qed.

Lemma searchResponse_next_link_witness :
  ¬ has_next_link (searchResponse (-1) 10 {| hits_hits := []; hits_total := 5 |})
  ∧ has_next_link (searchResponse 2 10 {| hits_hits := []; hits_total := 25 |}).
Proof.
  split.
  - intros Hnext.
    apply (proj1 (searchResponse_next_link (-1) 10 {| hits_hits := []; hits_total := 5 |}
                    ltac:(vm_compute; reflexivity) ltac:(vm_compute; discriminate)))
      in Hnext as [_ Hne].
    apply Hne. reflexivity.
  - apply (proj1 (searchResponse_next_link 2 10 {| hits_hits := []; hits_total := 25 |}
                    ltac:(vm_compute; reflexivity) ltac:(vm_compute; discriminate))).
    split; [reflexivity | discriminate].
Defined.

(** ** Engine failures in search *)

(** X11. A search succeeds exactly when the engine's search call
    resolves: a resolved call gives the response shaped from what the
    engine returned, and an engine rejection is the call's rejection,
    unchanged.  Without a client the call fails with a TypeError, after
    the query has been built. *)
Theorem search_surfaces_engine_errors client parameters index p l :
  (∀ esResponse,
     await (client_search client (searchParams parameters index p l)) = Ok esResponse →
     search (Some client) parameters (Some index) (Some p) (Some l) =
       Ok (searchResponse p l esResponse))
  ∧ (∀ e, await (client_search client (searchParams parameters index p l)) = Throw e →
          search (Some client) parameters (Some index) (Some p) (Some l) = Throw e)
  ∧ (∀ response,
       search (Some client) parameters (Some index) (Some p) (Some l) = Ok response →
       ∃ esResponse,
         await (client_search client (searchParams parameters index p l)) = Ok esResponse
         ∧ response = searchResponse p l esResponse)
  ∧ ∃ msg, search None parameters (Some index) (Some p) (Some l) = Throw (TypeError msg).
Proof.
  unfold search. simpl. split; [|split; [|split; [|eauto]]].
  - intros esResponse He. by rewrite He.
  - intros e He. by rewrite He.
  - intros response.
    destruct (await (client_search client (searchParams parameters index p l)))
      as [esResponse|e]; simpl; intros H; inversion H. by exists esResponse.
Qed.

Lemma search_surfaces_engine_errors_witness :
  search (Some (failing_engine (External "search_phase_execution_exception"))) no_parameters
         (Some "*") (Some 1) (Some 10) =
    Throw (External "search_phase_execution_exception").
Proof.
  apply (proj1 (proj2 (search_surfaces_engine_errors
                         (failing_engine (External "search_phase_execution_exception"))
                         no_parameters "*" 1 10))).
  reflexivity.
Defined.

(** ** The ingest transform on other records *)



(** A record with an [extent] is a Collection even when it also has a
    [geometry], and it is routed to the collections index without the
    client being touched, connected or not. *)
Theorem route_collection_first env client h data :
  truthy_val data = true →
  hasOwnProperty h data "extent" = Ok true →
  route env client h data = Ok (Some (COLLECTIONS_INDEX env)).
Proof. intros Htruthy Hextent. unfold route. by rewrite Htruthy, Hextent. Qed.

Lemma route_collection_first_witness :
  route default_env None collection_store (VRef 1%positive) = Ok (Some "collections").
Proof.
  apply (route_collection_first default_env None collection_store (VRef 1%positive));
    vm_compute; reflexivity.
Defined.

(** X13. A routed record whose [links] is not an array - missing, null, or
    anything else - makes the transform throw a TypeError; the store is
    left as it was. *)
Theorem toEs_links_required env client h data index :
  route env client h data = Ok (Some index) →
  (∀ la elems ps, read h data "links" = Ok (VRef la) → h !! la ≠ Some (CArr elems ps)) →
  ∃ msg, toEs env client h data = (h, Thrown (TypeError msg)).
Proof.
  intros Hroute Hnot. unfold toEs. rewrite Hroute.
  destruct (data_links_filter h data) as [kept|e] eqn:Hf.
  - exfalso. unfold data_links_filter in Hf.
    destruct (read h data "links") as [links|e] eqn:Hr; simpl in Hf; [|done].
    destruct links; try done.
    destruct (h !! l) as [[ps|elems ps]|] eqn:Hl; try done.
    by apply (Hnot l elems ps).
  - apply data_links_filter_throws_TypeError in Hf as [msg ->]. by exists msg.
Qed.

Lemma toEs_links_required_witness :
  ∃ msg, toEs default_env None collection_store (VRef 1%positive) =
           (collection_store, Thrown (TypeError msg)).
Proof.
  apply (toEs_links_required default_env None collection_store (VRef 1%positive) "collections").
  - vm_compute. reflexivity.
  - intros la elems ps Hread. vm_compute in Hread. discriminate Hread.
Defined.

Lemma get_without_proto (o : dict val) k :
  k ≠ "__proto__" → get (without_proto o) k = get o k.
Proof.
  intros Hk. induction o as [|[k' v'] o IH]; [done|].
  change (get ((k', v') :: o) k) with (if String.eqb k k' then Some v' else get o k).
  destruct (String.eqb_spec k' "__proto__") as [->|Hk'].
  - change (without_proto (("__proto__", v') :: o)) with (without_proto o).
    by destruct (String.eqb_spec k "__proto__").
  - rewrite (without_proto_cons_ne k' v' o Hk').
    change (get ((k', v') :: without_proto o) k)
      with (if String.eqb k k' then Some v' else get (without_proto o) k).
    by rewrite IH.
Qed.

(** X14. The write directive of a routed record is an upsert by update with a
    conflict-retry budget of 3, for the index the record was routed to.
    It is addressed by the record's own [id].  A record without one is
    addressed by the [id] of the object its own [__proto__] property
    refers to, which the copy takes as its prototype; when that property
    refers to no object, the address is [undefined]. *)
Theorem toEs_directive env client h ld ps index kept :
  h !! ld = Some (CObj ps) → NoDup (keys ps) →
  route env client h (VRef ld) = Ok (Some index) →
  data_links_filter h (VRef ld) = Ok kept →
  ∃ h' record,
    toEs env client h (VRef ld) = (h', Pushed record)
    ∧ r_index record = index
    ∧ (∀ id, get ps "id" = Some id → r_id record = id)
    ∧ (get ps "id" = None → (∀ lp, get ps "__proto__" ≠ Some (VRef lp)) →
       r_id record = VUndefined)
    ∧ (∀ lp px, get ps "id" = None → get ps "__proto__" = Some (VRef lp) →
                h !! lp = Some (CObj px) →
                r_id record = default VUndefined (get px "id"))
    ∧ r_type record = "doc"
    ∧ r_action record = "update"
    ∧ r__retry_on_conflict record = 3
    ∧ r_body_doc_as_upsert record = true.
Proof.
  intros Hld Hnd Hroute Hf.
  unfold toEs. rewrite Hroute, Hf. cbv zeta.
  set (a1 := alloc h (CArr kept [])).
  pose proof (own_enumerable_alloc h (CArr kept []) ld _ Hld) as Hsame. fold a1 in Hsame.
  assert (∀ l c, h !! l = Some c → a1.2 !! l = Some c) as Hkeep1
      by (intros; by apply alloc_preserves).
  destruct a1 as [links' h1]. cbn [snd] in Hsame, Hkeep1.
  rewrite Hsame. unfold own_enumerable. rewrite Hld, assign_fresh_links by done.
  cbn [fst snd].
  set (body := CObj _).
  assert (∀ l c, h1 !! l = Some c → (alloc h1 body).2 !! l = Some c) as Hkeep2
      by (intros; by apply alloc_preserves).
  destruct (alloc h1 body) as [doc h2]. cbn [snd] in Hkeep2.
  eexists _, _. split; [reflexivity|].
  cbn [r_index r_id r_type r_action r__retry_on_conflict r_body_doc_as_upsert].
  unfold read_built. cbn [fst snd].
  rewrite get_put_ne, get_without_proto by discriminate.
  split; [done|]. split; [by intros id ->|]. split; [|split; [|done]].
  - intros -> Hnone. unfold proto_given.
    destruct (get ps "__proto__") as [[| | | | |lp]|] eqn:Hp; try done.
    by destruct (Hnone lp).
  - intros lp px -> Hp Hlp. unfold proto_given. rewrite Hp.
    unfold props_of. by rewrite (Hkeep2 _ _ (Hkeep1 _ _ Hlp)).
Qed.

Lemma toEs_directive_witness :
  ∃ h' record,
    toEs default_env (Some empty_engine) item_store (VRef 1%positive) = (h', Pushed record)
    ∧ r_id record = VStr "item-1" ∧ r__retry_on_conflict record = 3.
Proof.
  destruct (toEs_directive default_env (Some empty_engine) item_store 1%positive
              [("id", VStr "item-1"); ("geometry", VNull);
               ("collection", VStr "landsat"); ("links", VRef 2%positive)]
              "items" [VRef 4%positive])
    as (h' & record & Ht & _ & Hid & _ & _ & _ & _ & Hretry & _).
  - vm_compute. reflexivity.
  - apply (bool_decide_unpack _). vm_compute. exact I.
  - vm_compute. reflexivity.
  - vm_compute. reflexivity.
  - exists h', record. split; [exact Ht|]. split; [exact (Hid _ eq_refl) | exact Hretry].
Defined.

(** An Item parsed from
    [{"geometry": null, "links": [], "__proto__": {"id": "inherited"}}]:
    the directive is addressed by the [id] of the object under
    [__proto__], and the document has no [__proto__] property. *)
Lemma toEs_inherited_id :
  let h := <[1%positive := CObj [("geometry", VNull); ("links", VRef 2%positive);
                                 ("__proto__", VRef 3%positive)]]>
           (<[2%positive := CArr [] []]>
           (<[3%positive := CObj [("id", VStr "inherited")]]> ∅)) in
  ∃ h' record doc links',
    toEs default_env (Some empty_engine) h (VRef 1%positive) = (h', Pushed record)
    ∧ r_id record = VStr "inherited"
    ∧ r_body_doc record = VRef doc
    ∧ h' !! doc = Some (CObj [("geometry", VNull); ("links", VRef links')]).
Proof. vm_compute. eexists _, _, _, _. repeat split. Qed.

(** X15. Whatever the chunk and whatever the outcome - skipped, emitted or
    thrown - the transform changes no object that was in the store. *)
Theorem toEs_never_mutates env client h data l c :
  h !! l = Some c → (toEs env client h data).1 !! l = Some c.
Proof.
  intros Hl. unfold toEs.
  destruct (route env client h data) as [[index|]|e]; [|done|done].
  destruct (data_links_filter h data) as [kept|e]; [|done].
  pose proof (alloc_preserves h (CArr kept []) l c Hl) as H1.
  destruct (alloc h (CArr kept [])) as [links' h1]. cbn [snd] in H1.
  cbv zeta. set (body := CObj _).
  pose proof (alloc_preserves h1 body l c H1) as H2.
  by destruct (alloc h1 body) as [doc h2].
Qed.

Lemma toEs_never_mutates_witness :
  (toEs default_env (Some empty_engine) item_store (VRef 1%positive)).1 !! 3%positive =
    Some (CObj [("rel", VStr "self"); ("href", VStr "a")]).
Proof.
  apply (toEs_never_mutates default_env (Some empty_engine) item_store (VRef 1%positive)).
  reflexivity.
Defined.

(** ** Partial update on other patches *)

Lemma put_put {A} (o : dict A) k v v' : put (put o k v) k v' = put o k v'.
Proof.
  induction o as [|[k0 v0] o IH]; simpl.
  - by rewrite String.eqb_refl.
  - destruct (String.eqb_spec k k0) as [->|Hne]; simpl.
    + by rewrite String.eqb_refl.
    + destruct (String.eqb_spec k k0); [done|]. by rewrite IH.
Qed.

(** X16. The partial update changes at most the patch object and the object
    its [properties] refers to: every other object of the store is left
    as it was, for every patch and whether the call then succeeds or
    fails. *)
Theorem editPartialItem_frame env esClient now h itemId updateFields l c :
  h !! l = Some c →
  updateFields ≠ VRef l →
  read h updateFields "properties" ≠ Ok (VRef l) →
  (editPartialItem env esClient now h itemId updateFields).1 !! l = Some c.
Proof.
  intros Hl Hpatch Hprops. unfold editPartialItem.
  pose proof (alloc_preserves h (CObj [("updated", VStr now)]) l c Hl) as H1.
  assert (read (alloc h (CObj [("updated", VStr now)])).2 updateFields "properties" ≠
            Ok (VRef l)) as Hprops1.
  { intros Hr. apply Hprops. unfold read, props_of in *.
    destruct updateFields as [| | | | |lu]; try done.
    destruct (h !! lu) as [cu|] eqn:Hlu.
    - by rewrite (alloc_preserves h _ lu cu Hlu) in Hr.
    - exfalso. destruct (decide (lu = (alloc h (CObj [("updated", VStr now)])).1)) as [->|Hne].
      + rewrite alloc_lookup in Hr. simpl in Hr. done.
      + unfold alloc in Hr. simpl in Hr. rewrite lookup_insert_ne in Hr by done.
        rewrite Hlu in Hr. simpl in Hr. done. }
  destruct (alloc h (CObj [("updated", VStr now)])) as [lr h1]. cbn [snd] in H1, Hprops1.
  destruct (read h1 updateFields "properties") as [properties|e] eqn:Hr; simpl; [|done].
  destruct (truthy_val properties) eqn:Ht.
  - unfold object_assign.
    destruct properties as [| | | | |lp]; try done.
    assert (lp ≠ l) as Hne by congruence.
    destruct (h1 !! lp) as [[ps|es ps]|]; simpl; [| |done];
      by rewrite lookup_insert_ne.
  - unfold write.
    destruct updateFields as [| | | | |lu]; try done.
    assert (lu ≠ l) as Hne by congruence.
    destruct (h1 !! lu) as [[ps|es ps]|]; simpl; [| |done];
      by rewrite lookup_insert_ne.
Qed.

Lemma editPartialItem_frame_witness :
  (editPartialItem default_env None "2026-01-01T00:00:00.000Z" patch_store_primitive
     (VStr "item-1") (VRef 1%positive)).1 !! 2%positive =
    Some (CObj [("id", VStr "other")]).
Proof.
  apply (editPartialItem_frame default_env None "2026-01-01T00:00:00.000Z"
           patch_store_primitive (VStr "item-1") (VRef 1%positive) 2%positive).
  - reflexivity.
  - discriminate.
  - vm_compute. discriminate.
Defined.

(** X17. A patch that is not an object - undefined, null or a primitive - is
    refused with a TypeError, with or without a client. *)
Theorem editPartialItem_refuses_non_objects env esClient now h itemId updateFields :
  (∀ l, updateFields ≠ VRef l) →
  ∃ msg, (editPartialItem env esClient now h itemId updateFields).2 = Throw (TypeError msg).
Proof.
  intros Hprim. unfold editPartialItem.
  destruct (alloc h (CObj [("updated", VStr now)])) as [lr h1].
  destruct updateFields as [| | | | |l]; simpl; eauto.
  by destruct (Hprim l).
Qed.

Lemma editPartialItem_refuses_non_objects_witness :
  ∃ msg, (editPartialItem default_env (Some empty_engine) "2026-01-01T00:00:00.000Z"
            patch_store_flat (VStr "item-1") VNull).2 = Throw (TypeError msg).
Proof.
  apply (editPartialItem_refuses_non_objects default_env (Some empty_engine)
           "2026-01-01T00:00:00.000Z" patch_store_flat (VStr "item-1") VNull).
  intros l. discriminate.
Defined.

(** X18. A patch whose [properties] is a truthy primitive - a non-empty
    string, a non-zero number, true - is sent as it is: the patch object
    is unchanged and no timestamp reaches the document. *)
Theorem editPartialItem_primitive_properties env esClient now h itemId lpatch patch v :
  h !! lpatch = Some (CObj patch) →
  get patch "properties" = Some v →
  truthy_val v = true → (∀ l, v ≠ VRef l) →
  ∃ h', editPartialItem env esClient now h itemId (VRef lpatch) =
          (h', sent_update env esClient itemId (VRef lpatch) h')
        ∧ h' !! lpatch = Some (CObj patch)
        ∧ read h' (VRef lpatch) "properties" = Ok v.
Proof.
  intros Hpatch Hprops Htruthy Hprim.
  pose proof (alloc_preserves h (CObj [("updated", VStr now)]) lpatch _ Hpatch) as H1.
  exists (alloc h (CObj [("updated", VStr now)])).2.
  split; [|split; [done | by rewrite (read_object _ lpatch patch "properties" H1), Hprops]].
  unfold editPartialItem.
  destruct (alloc h (CObj [("updated", VStr now)])) as [lr h1]. cbn [snd] in *.
  rewrite (read_object h1 lpatch patch "properties" H1), Hprops. simpl.
  rewrite Htruthy.
  destruct v as [| | | | |l]; try done. by destruct (Hprim l).
Qed.

Lemma editPartialItem_primitive_properties_witness :
  ∃ h', editPartialItem default_env (Some empty_engine) "2026-01-01T00:00:00.000Z"
          patch_store_primitive (VStr "item-1") (VRef 1%positive) =
          (h', Ok Undefined)
        ∧ h' !! 1%positive = Some (CObj [("properties", VStr "archived")]).
Proof.
  destruct (editPartialItem_primitive_properties default_env (Some empty_engine)
              "2026-01-01T00:00:00.000Z" patch_store_primitive (VStr "item-1") 1%positive
              [("properties", VStr "archived")] (VStr "archived")
              eq_refl eq_refl eq_refl ltac:(discriminate))
    as (h' & Hedit & Hsame & _).
  exists h'. split; [exact Hedit | exact Hsame].
Defined.

(** X19. Updating twice with the same patch object: the second timestamp
    replaces the first in the caller's properties object, which keeps its
    other entries and gets no second [updated] key, and the patch object
    itself stays as it was. *)
Theorem editPartialItem_twice env client1 client2 now1 now2 h itemId lpatch patch lp props :
  h !! lpatch = Some (CObj patch) →
  get patch "properties" = Some (VRef lp) →
  h !! lp = Some (CObj props) →
  lp ≠ lpatch →
  let h1 := (editPartialItem env client1 now1 h itemId (VRef lpatch)).1 in
  let h2 := (editPartialItem env client2 now2 h1 itemId (VRef lpatch)).1 in
  h2 !! lp = Some (CObj (put props "updated" (VStr now2)))
  ∧ h2 !! lpatch = Some (CObj patch).
Proof.
  intros Hpatch Hprops Hlp Hne h1 h2.
  assert (h1 !! lp = Some (CObj (put props "updated" (VStr now1)))
          ∧ h1 !! lpatch = Some (CObj patch)) as [Hlp1 Hpatch1].
  { subst h1.
    rewrite (editPartialItem_properties_present env client1 now1 h itemId lpatch patch lp props)
      by done.
    cbn [fst]. split; [apply lookup_insert_eq|].
    rewrite lookup_insert_ne by done. by apply alloc_preserves. }
  subst h2.
  rewrite (editPartialItem_properties_present env client2 now2 h1 itemId lpatch patch lp
             (put props "updated" (VStr now1))) by done.
  cbn [fst]. split.
  - rewrite lookup_insert_eq. by rewrite put_put.
  - rewrite lookup_insert_ne by done. by apply alloc_preserves.
Qed.

Lemma editPartialItem_twice_witness :
  (editPartialItem default_env None "2026-02-02T00:00:00.000Z"
     (editPartialItem default_env None "2026-01-01T00:00:00.000Z" patch_store_nested
        (VStr "item-1") (VRef 1%positive)).1
     (VStr "item-1") (VRef 1%positive)).1 !! 2%positive =
    Some (CObj [("status", VStr "archived"); ("updated", VStr "2026-02-02T00:00:00.000Z")]).
Proof.
  apply (editPartialItem_twice default_env None None "2026-01-01T00:00:00.000Z"
           "2026-02-02T00:00:00.000Z" patch_store_nested (VStr "item-1") 1%positive
           [("properties", VRef 2%positive)] 2%positive
           [("status", VStr "archived"); ("updated", VStr "old")]
           eq_refl eq_refl eq_refl ltac:(discriminate)).
Defined.

(** ** Index creation behind the probe *)

(** X20. For a client object that does define an [exits] probe: when the
    probe resolves, [create_index] succeeds whatever the creation does -
    a failed or impossible creation is logged and swallowed, and a truthy
    probe means no creation and no log; when the probe rejects, that
    rejection is the call's. *)
Theorem create_index_behind_the_probe env collections_mapping items_mapping client index probe :
  get (indices client) "exits" = Some probe →
  (∀ found, probe (Obj [("index", Str index)]) = Promise (Ok found) →
     (create_index env collections_mapping items_mapping (Some client) index).1 = Ok tt
     ∧ (truthy found = true →
        create_index env collections_mapping items_mapping (Some client) index = (Ok tt, [])))
  ∧ (∀ e, probe (Obj [("index", Str index)]) = Promise (Throw e) →
       create_index env collections_mapping items_mapping (Some client) index = (Throw e, [])).
Proof.
  intros Hprobe. unfold create_index, indices_call. simpl. rewrite Hprobe. simpl.
  split.
  - intros found ->. simpl. destruct (truthy found); simpl; [done|].
    split; [|done].
    destruct (get (indices client) "create") as [create|]; simpl; [|done].
    by destruct (await (create _)).
  - by intros e ->.
Qed.

Lemma create_index_behind_the_probe_witness :
  create_index default_env (Obj []) (Obj []) (Some (probing_engine Null (External "exists")))
    "items" =
    (Ok tt, [LogDebugError "Error creating index items, already created: " (External "exists")]).
Proof.
  pose proof (proj1 (create_index_behind_the_probe default_env (Obj []) (Obj [])
                       (probing_engine Null (External "exists")) "items"
                       (fun _ => Promise (Ok Null)) eq_refl) Null eq_refl) as [Hok _].
  destruct (create_index default_env (Obj []) (Obj [])
              (Some (probing_engine Null (External "exists"))) "items") as [r log] eqn:E.
  simpl in Hok. subst r. vm_compute in E. inversion E. reflexivity.
Defined.

(** ** The normaliser without a fetch *)

(** X21. A message without an [href] is the record itself and is returned as
    it is; an [href] the URL parser refuses fails with the parser's
    error; in neither case is anything fetched. *)
Theorem stacItemFromSnsMessage_without_fetch new_URL getObjectJson got_get_json fields :
  (get fields "href" = None →
   stacItemFromSnsMessage new_URL getObjectJson got_get_json (Obj fields) = Ok (Obj fields))
  ∧ (∀ href e, get fields "href" = Some href → new_URL (to_string href) = Throw e →
       stacItemFromSnsMessage new_URL getObjectJson got_get_json (Obj fields) = Throw e).
Proof.
  unfold stacItemFromSnsMessage. simpl. rewrite includes_keys. split.
  - by intros ->.
  - intros href e Hhref Hurl. rewrite Hhref. simpl. unfold prop. rewrite Hhref. simpl.
    by rewrite Hurl.
Qed.

Lemma stacItemFromSnsMessage_without_fetch_witness :
  stacItemFromSnsMessage simple_URL echo_getObjectJson echo_got
    (Obj [("href", Str "items/item.json")]) = Throw (TypeError "Invalid URL").
Proof.
  apply (proj2 (stacItemFromSnsMessage_without_fetch simple_URL echo_getObjectJson echo_got
                  [("href", Str "items/item.json")]) (Str "items/item.json")); reflexivity.
Defined.

(** X22. A queue record whose body is not a notification is the parsed body
    itself - an [href] in it is not dereferenced; a notification is
    unwrapped: its [Message] is parsed and normalised. *)
Theorem stacItemFromRecord_unwraps new_URL getObjectJson got_get_json JSON_parse
    record body fields :
  dot record "body" = Ok body →
  JSON_parse (to_string body) = Ok (Obj fields) →
  (is_str (prop fields "Type") "Notification" = false →
   stacItemFromRecord new_URL getObjectJson got_get_json JSON_parse record = Ok (Obj fields))
  ∧ (is_str (prop fields "Type") "Notification" = true →
     stacItemFromRecord new_URL getObjectJson got_get_json JSON_parse record =
       let? message := JSON_parse (to_string (prop fields "Message")) in
       stacItemFromSnsMessage new_URL getObjectJson got_get_json message).
Proof.
  intros Hbody Hparse. unfold stacItemFromRecord, isSnsMessage.
  rewrite Hbody. simpl. rewrite Hparse. simpl. split; by intros ->.
Qed.

Lemma stacItemFromRecord_unwraps_witness :
  stacItemFromRecord simple_URL echo_getObjectJson echo_got example_JSON_parse
    (Obj [("body", Str "item")]) =
    Ok (Obj [("id", Str "item-1"); ("href", Str "s3://bucket/key")])
  ∧ stacItemFromRecord simple_URL echo_getObjectJson echo_got example_JSON_parse
      (Obj [("body", Str "sns")]) =
    Ok (Obj [("bucket", Str "bucket"); ("key", Str "key")]).
Proof.
  split.
  - apply (proj1 (stacItemFromRecord_unwraps simple_URL echo_getObjectJson echo_got
                    example_JSON_parse (Obj [("body", Str "item")]) (Str "item")
                    [("id", Str "item-1"); ("href", Str "s3://bucket/key")]
                    eq_refl eq_refl)).
    reflexivity.
  - rewrite (proj2 (stacItemFromRecord_unwraps simple_URL echo_getObjectJson echo_got
                      example_JSON_parse (Obj [("body", Str "sns")]) (Str "sns")
                      [("Type", Str "Notification"); ("Message", Str "item")]
                      eq_refl eq_refl) eq_refl).
    reflexivity.
Defined.

Lemma sequence_Ok {A} (rs : list (result A)) xs :
  sequence rs = Ok xs ↔ Forall2 (fun r x => r = Ok x) rs xs.
Proof.
  revert xs. induction rs as [|r rs IH]; intros xs; simpl.
  - split; [intros H; inversion H; constructor | intros H; by inversion H].
  - destruct r as [a|e]; simpl.
    + destruct (sequence rs) as [tail|e] eqn:Hs; simpl.
      * split.
        -- intros H. inversion H; subst. constructor; [done | by apply IH].
        -- intros H. inversion H as [|? x ? xs' Hx Hrest]; subst.
           inversion Hx; subst. apply IH in Hrest. by inversion Hrest.
      * split; [done|]. intros H. inversion H as [|? x ? xs' Hx Hrest]; subst.
        apply IH in Hrest. done.
    + split; [done|]. intros H. inversion H as [|? x ? xs' Hx Hrest]; subst. done.
Qed.

Lemma sequence_Throw {A} (rs : list (result A)) :
  (∃ e, sequence rs = Throw e) ↔ ∃ e, Throw e ∈ rs.
Proof.
  split.
  - induction rs as [|r rs IH]; simpl; [by intros [e H]|].
    destruct r as [a|e]; simpl.
    + destruct (sequence rs) as [tail|e]; simpl; [by intros [e H]|].
      intros _. destruct IH as [e' H]; [eauto|]. exists e'. by apply elem_of_cons; right.
    + intros _. exists e. apply list_elem_of_here.
  - intros [e H]. by apply (sequence_throw rs e).
Qed.

Lemma rejections_elem {A} (rs : list (result A)) e : e ∈ rejections rs ↔ Throw e ∈ rs.
Proof.
  unfold rejections. rewrite list_elem_of_omap. split.
  - intros (r & Hin & Hr). destruct r as [a|e']; [discriminate Hr|].
    inversion Hr. by subst.
  - intros Hin. by exists (Throw e).
Qed.

Lemma promise_all_Ok {A} settles_first (rs : list (result A)) xs :
  promise_all settles_first rs = Ok xs ↔ Forall2 (fun r x => r = Ok x) rs xs.
Proof.
  unfold promise_all. destruct (rejections rs) as [|e es] eqn:Hrej.
  - apply sequence_Ok.
  - split; [done|]. intros Hall. exfalso.
    assert (Throw e ∈ rs) as Hin
        by (apply rejections_elem; rewrite Hrej; apply list_elem_of_here).
    apply list_elem_of_lookup in Hin as [i Hi].
    destruct (Forall2_lookup_l _ _ _ _ _ Hall Hi) as (x & _ & Hx). done.
Qed.

Lemma promise_all_Throw {A} settles_first (rs : list (result A)) e :
  promise_all settles_first rs = Throw e → Throw e ∈ rs.
Proof.
  unfold promise_all. destruct (rejections rs) as [|e0 es] eqn:Hrej.
  - intros Hs. destruct (proj1 (sequence_Throw rs) (ex_intro _ e Hs)) as [e' Hin].
    apply rejections_elem in Hin. rewrite Hrej in Hin. by apply elem_of_nil in Hin.
  - intros H. apply rejections_elem. rewrite Hrej.
    assert (e = nth (settles_first (e0 :: es)) (e0 :: es) e0) as -> by congruence.
    destruct (nth_in_or_default (settles_first (e0 :: es)) (e0 :: es) e0) as [Hin|Hd].
    + by apply list_elem_of_In.
    + rewrite Hd. apply list_elem_of_here.
Qed.

Lemma promise_all_rejects {A} settles_first (rs : list (result A)) e :
  Throw e ∈ rs → ∃ e', promise_all settles_first rs = Throw e'.
Proof.
  intros Hin. apply rejections_elem in Hin. unfold promise_all.
  destruct (rejections rs); [by apply elem_of_nil in Hin | eauto].
Qed.

(** X23. A queue batch is normalised entirely or not at all: the call
    yields one record per queue message, in the messages' order, exactly
    when every message normalises, and it fails exactly when one of them
    fails, with the failure of one of them - whichever settles first. *)
Theorem stacItemsFromSqsEvent_all_or_nothing new_URL getObjectJson got_get_json JSON_parse
    settles_first event records :
  dot event "Records" = Ok (Arr records) →
  let normalise := stacItemFromRecord new_URL getObjectJson got_get_json JSON_parse in
  let batch := stacItemsFromSqsEvent new_URL getObjectJson got_get_json JSON_parse
                 settles_first event in
  (∀ items, batch = Ok items ↔
            Forall2 (fun record item => normalise record = Ok item) records items)
  ∧ (∀ items, batch = Ok items → length items = length records)
  ∧ ((∃ e, batch = Throw e) ↔ ∃ record e, record ∈ records ∧ normalise record = Throw e)
  ∧ (∀ e, batch = Throw e → ∃ record, record ∈ records ∧ normalise record = Throw e).
Proof.
  intros Hrecords normalise batch. subst batch. unfold stacItemsFromSqsEvent.
  rewrite Hrecords. simpl. fold normalise.
  change (map normalise records) with (normalise <$> records).
  assert (∀ items, promise_all settles_first (normalise <$> records) = Ok items ↔
                   Forall2 (fun record item => normalise record = Ok item) records items)
    as Hall.
  { intros items. rewrite promise_all_Ok. by rewrite Forall2_fmap_l. }
  assert (∀ e, promise_all settles_first (normalise <$> records) = Throw e →
               ∃ record, record ∈ records ∧ normalise record = Throw e) as Hone.
  { intros e H. apply promise_all_Throw in H.
    apply list_elem_of_fmap in H as (record & Hr & Hin). by exists record. }
  split; [exact Hall|]. split; [|split; [|exact Hone]].
  - intros items H. apply Hall in H. symmetry. by eapply Forall2_length.
  - split.
    + intros [e H]. destruct (Hone e H) as (record & Hin & Hr). by exists record, e.
    + intros (record & e & Hin & Hr).
      apply (promise_all_rejects settles_first (normalise <$> records) e).
      rewrite <- Hr. by apply list_elem_of_fmap_2.
Qed.

Lemma stacItemsFromSqsEvent_all_or_nothing_witness :
  stacItemsFromSqsEvent simple_URL echo_getObjectJson echo_got example_JSON_parse
    (fun _ => 0%nat)
    (Obj [("Records", Arr [Obj [("body", Str "sns")]; Obj [("body", Str "item")]])]) =
    Ok [Obj [("bucket", Str "bucket"); ("key", Str "key")];
        Obj [("id", Str "item-1"); ("href", Str "s3://bucket/key")]].
Proof.
  apply (proj1 (stacItemsFromSqsEvent_all_or_nothing simple_URL echo_getObjectJson echo_got
                  example_JSON_parse (fun _ => 0%nat)
                  (Obj [("Records", Arr [Obj [("body", Str "sns")]; Obj [("body", Str "item")]])])
                  [Obj [("body", Str "sns")]; Obj [("body", Str "item")]] eq_refl)).
  repeat constructor.
Defined.

(** ** The handler *)

(** X24. An event without [Records] is a direct invocation: the event itself,
    whole, is the one item handed to ingest - also when it asks for the
    indices to be created, which is done first - and the handler ends as
    the ingest does.  When the index creation fails, nothing is ingested. *)
Theorem handler_direct_invocation new_URL getObjectJson got_get_json JSON_parse
    settles_first createIndex ingest fields :
  get fields "Records" = None →
  (truthy (prop fields "create_indices") = false →
   handler new_URL getObjectJson got_get_json JSON_parse settles_first createIndex ingest
     (Obj fields) =
     let? _ := ingest [Obj fields] in Ok tt)
  ∧ (truthy (prop fields "create_indices") = true →
     handler new_URL getObjectJson got_get_json JSON_parse settles_first createIndex ingest
     (Obj fields) =
       let? _ := createIndex "collections" in
       let? _ := ingest [Obj fields] in Ok tt)
  ∧ (∀ e, truthy (prop fields "create_indices") = true →
          createIndex "collections" = Throw e →
          ∀ ingest', handler new_URL getObjectJson got_get_json JSON_parse settles_first createIndex
                       ingest'
                       (Obj fields) = Throw e).
Proof.
  intros Hdirect. unfold handler, isSqsEvent. simpl. rewrite includes_keys, Hdirect.
  split; [|split].
  - by intros ->.
  - intros ->. by destruct (createIndex "collections").
  - intros e -> He ingest'. by rewrite He.
Qed.

Lemma handler_direct_invocation_witness :
  handler simple_URL echo_getObjectJson echo_got example_JSON_parse (fun _ => 0%nat)
    (fun _ => Ok tt)
    (fun items => if Nat.eqb (length items) 1 then Ok true else Throw (External "batch"))
    (Obj [("create_indices", Bool true)]) = Ok tt.
Proof.
  rewrite (proj1 (proj2 (handler_direct_invocation simple_URL echo_getObjectJson echo_got
                           example_JSON_parse (fun _ => 0%nat) (fun _ => Ok tt)
                           (fun items => if Nat.eqb (length items) 1 then Ok true
                                         else Throw (External "batch"))
                           [("create_indices", Bool true)] eq_refl)) eq_refl).
  reflexivity.
Defined.

(** X25. A queue batch reaches ingest only whole: when every message
    normalises the handler hands all the records, in order, to one ingest
    call and ends as it does; when a message fails, the handler fails
    with the batch and ingests nothing. *)
Theorem handler_queue_batch new_URL getObjectJson got_get_json JSON_parse
    settles_first createIndex ingest fields :
  truthy (prop fields "create_indices") = false →
  includes (keys fields) "Records" = true →
  (∀ items,
     stacItemsFromSqsEvent new_URL getObjectJson got_get_json JSON_parse settles_first
       (Obj fields) = Ok items →
     handler new_URL getObjectJson got_get_json JSON_parse settles_first createIndex ingest
     (Obj fields) =
       let? _ := ingest items in Ok tt)
  ∧ (∀ e,
       stacItemsFromSqsEvent new_URL getObjectJson got_get_json JSON_parse settles_first
       (Obj fields) = Throw e →
       ∀ ingest', handler new_URL getObjectJson got_get_json JSON_parse settles_first createIndex
                       ingest'
                    (Obj fields) = Throw e).
Proof.
  intros Hcreate Hsqs. unfold handler, isSqsEvent. simpl. rewrite Hcreate, Hsqs. simpl.
  split.
  - by intros items ->.
  - by intros e -> ingest'.
Qed.

Lemma handler_queue_batch_witness :
  handler simple_URL echo_getObjectJson echo_got example_JSON_parse (fun _ => 0%nat)
    (fun _ => Ok tt) (fun _ => Ok true)
    (Obj [("Records", Arr [Obj [("body", Str "broken")]])]) = Throw (External "SyntaxError").
Proof.
  apply (proj2 (handler_queue_batch simple_URL echo_getObjectJson echo_got example_JSON_parse
                  (fun _ => 0%nat) (fun _ => Ok tt) (fun _ => Ok true)
                  [("Records", Arr [Obj [("body", Str "broken")]])] eq_refl eq_refl)).
  reflexivity.
Defined.

(** ** Ingest of a batch *)

Lemma fold_push {A} (items pushed : list A) :
  fold_left (fun pushed item => push pushed item) items pushed = (pushed ++ items)%list.
Proof.
  revert pushed. induction items as [|item items IH]; intros pushed; simpl.
  - by rewrite app_nil_r.
  - rewrite IH. unfold push. by rewrite <- app_assoc.
Qed.

(** X26. [ingestItems] pushes the items in their order and then the end of
    stream, once: one chunk more than there are items. *)
Theorem pushed_by_ingestItems_order items :
  pushed_by_ingestItems items = (items ++ [Null])%list
  ∧ length (pushed_by_ingestItems items) = S (length items)
  ∧ ∀ i item, items !! i = Some item → pushed_by_ingestItems items !! i = Some item.
Proof.
  assert (pushed_by_ingestItems items = (items ++ [Null])%list) as ->.
  { unfold pushed_by_ingestItems. by rewrite fold_push. }
  split; [done|]. split.
  - rewrite length_app. simpl. lia.
  - intros i item Hi. by apply lookup_app_l_Some.
Qed.

(** X27. How [ingestItems] settles, for every batch and every pipeline
    the factory yields: resolved, and then with true, exactly when [pump]
    calls back without an error; rejected exactly with the error [pump]
    calls back with or throws at set-up; pending exactly when [pump]
    never calls back.  Its callback never throws. *)
Theorem ingestItems_settles {Stage : Type}
    (pump : option Stage → option Stage → list value → result (option (option error)))
    (stream : unit → result (option (StreamPair Stage))) (items : list value) :
  (∀ s, stream tt = Ok (Some s) →
     (∀ b, (ingestItems pump stream items).1 = Resolved b ↔
           b = true ∧ pump (toDB s) (dbStream s) (items ++ [Null])%list = Ok (Some None))
     ∧ (∀ e, (ingestItems pump stream items).1 = Rejected e ↔
             pump (toDB s) (dbStream s) (items ++ [Null])%list = Ok (Some (Some e))
             ∨ pump (toDB s) (dbStream s) (items ++ [Null])%list = Throw e)
     ∧ ((ingestItems pump stream items).1 = Pending ↔
        pump (toDB s) (dbStream s) (items ++ [Null])%list = Ok None))
  ∧ ∀ e, (ingestItems pump stream items).1 ≠ Uncaught e.
Proof.
  unfold ingestItems, pushed_by_ingestItems. rewrite fold_push. unfold push. simpl.
  split.
  - intros s Hs. rewrite (piped_streams pump stream s _ Hs).
    destruct (pump (toDB s) (dbStream s) (items ++ [Null])%list) as [[[e|]|]|e]; simpl.
    + split; [intros b; split; [done | intros [_ H]; done]|]. split; [|done].
      intros e'. split; [intros H; inversion H; by left|].
      intros [H|H]; by inversion H.
    + split; [intros b; split; [intros H; by inversion H | by intros [-> _]]|].
      split; [|done]. intros e'. split; [done | intros [H|H]; done].
    + split; [intros b; split; [done | intros [_ H]; done]|]. split; [|done].
      intros e'. split; [done | intros [H|H]; done].
    + split; [intros b; split; [done | intros [_ H]; done]|]. split; [|done].
      intros e'. split; [intros H; inversion H; by right|].
      intros [H|H]; by inversion H.
  - intros e. by destruct (piped pump stream (items ++ [Null])%list) as [[[e'|]|]|e'].
Qed.

Lemma ingestItems_settles_witness :
  (ingestItems confirming_pump confirming_stream
     [Obj [("id", Str "a")]; Obj [("id", Str "b")]]).1 = Resolved true.
Proof.
  apply (proj1 (proj1 (ingestItems_settles confirming_pump confirming_stream
                         [Obj [("id", Str "a")]; Obj [("id", Str "b")]])
                      {| toDB := Some tt; dbStream := Some tt |} eq_refl) true).
  split; reflexivity.
Defined.

(** X28. When the stream factory fails, or yields nothing to destructure,
    both ingest calls reject with that failure before anything is piped:
    whatever the pipeline would do, and without a log entry. *)
Theorem ingest_factory_failure {Stage : Type}
    (pump : option Stage → option Stage → list value → result (option (option error)))
    (stream : unit → result (option (StreamPair Stage))) :
  (∀ e, stream tt = Throw e →
        ∀ item items, ingestItem pump stream item = (Rejected e, [])
                      ∧ ingestItems pump stream items = (Rejected e, []))
  ∧ (stream tt = Ok None →
     ∀ item items,
       ∃ msg, ingestItem pump stream item = (Rejected (TypeError msg), [])
              ∧ ingestItems pump stream items = (Rejected (TypeError msg), [])).
Proof.
  split.
  - intros e He item items. unfold ingestItem, ingestItems, piped. by rewrite He.
  - intros Hnone item items. unfold ingestItem, ingestItems, piped. rewrite Hnone. simpl.
    eauto.
Qed.

Lemma ingest_factory_failure_witness :
  ingestItems confirming_pump (fun _ => Throw (External "no connection"))
    [Obj [("id", Str "item-1")]] = (Rejected (External "no connection"), []).
Proof.
  apply (proj1 (ingest_factory_failure confirming_pump
                  (fun _ => Throw (External "no connection")))
               (External "no connection") eq_refl Null).
Defined.

(** ** The connection *)

(** X29. [connect] yields a client only after that client's health
    probe has succeeded, and logs the health it reported; a failure of
    the constructor, of the credentials wrapper or of the probe is the
    rejection of [connect], with nothing logged.  Without an [ES_HOST]
    (unset or empty) the client is the local one for [localhost:9200],
    unwrapped; with one it is the client for [https://ES_HOST] on the AWS
    connection, wrapped. *)
Theorem connect_healthy {C : Type} (new_Client : ClientConfig → result C)
    (awsCredsifyAll : C → result C) (cat_health : C → result value) :
  (∀ ES_HOST, ES_HOST = None ∨ ES_HOST = Some "" →
     (∀ e, new_Client {| node := "localhost:9200"; aws_connection := false |} = Throw e →
           connect new_Client awsCredsifyAll cat_health ES_HOST = (Throw e, []))
     ∧ (∀ client e,
          new_Client {| node := "localhost:9200"; aws_connection := false |} = Ok client →
          cat_health client = Throw e →
          connect new_Client awsCredsifyAll cat_health ES_HOST = (Throw e, []))
     ∧ (∀ client health,
          new_Client {| node := "localhost:9200"; aws_connection := false |} = Ok client →
          cat_health client = Ok health →
          connect new_Client awsCredsifyAll cat_health ES_HOST =
            (Ok client, [LogDebugValue "Health: " health])))
  ∧ (∀ host, host ≠ "" →
       (∀ e, new_Client {| node := "https://" +:+ host; aws_connection := true |} = Throw e →
             connect new_Client awsCredsifyAll cat_health (Some host) = (Throw e, []))
       ∧ (∀ plain e,
            new_Client {| node := "https://" +:+ host; aws_connection := true |} = Ok plain →
            awsCredsifyAll plain = Throw e →
            connect new_Client awsCredsifyAll cat_health (Some host) = (Throw e, []))
       ∧ (∀ plain client e,
            new_Client {| node := "https://" +:+ host; aws_connection := true |} = Ok plain →
            awsCredsifyAll plain = Ok client →
            cat_health client = Throw e →
            connect new_Client awsCredsifyAll cat_health (Some host) = (Throw e, []))
       ∧ (∀ plain client health,
            new_Client {| node := "https://" +:+ host; aws_connection := true |} = Ok plain →
            awsCredsifyAll plain = Ok client →
            cat_health client = Ok health →
            connect new_Client awsCredsifyAll cat_health (Some host) =
              (Ok client, [LogDebugValue "Health: " health]))).
Proof.
  split.
  - intros ES_HOST Hlocal.
    assert (connect new_Client awsCredsifyAll cat_health ES_HOST =
            connect new_Client awsCredsifyAll cat_health None) as ->
      by (by destruct Hlocal as [-> | ->]).
    unfold connect. repeat split.
    + intros e ->. done.
    + intros client e -> He. simpl. by rewrite He.
    + intros client health -> Hh. simpl. by rewrite Hh.
  - intros host Hhost. unfold connect.
    destruct (String.eqb_spec host ""); [done|]. repeat split.
    + intros e ->. done.
    + intros plain e -> He. simpl. by rewrite He.
    + intros plain client e -> Hw He. simpl. rewrite Hw. simpl. by rewrite He.
    + intros plain client health -> Hw Hh. simpl. rewrite Hw. simpl. by rewrite Hh.
Qed.

Lemma esClient_state {C : Type} (connect : unit → result C * list logentry) state :
  (esClient connect state).1 = match state with
                               | Some client => Some client
                               | None => connected connect
                               end.
Proof.
  unfold esClient, connected. destruct state as [client|]; [done|].
  by destruct (connect tt) as [[client|e] log].
Qed.

(** X30. The connection is made once: over any series of [esClient()] calls,
    a client once held is the one every later call returns, whatever
    connecting would do by then; and starting unconnected, a failed
    attempt is not remembered - the client held at the end is that of
    the first attempt that succeeded. *)
Theorem esClient_memoizes {C : Type} (connects : list (unit → result C * list logentry)) :
  (∀ client, esClient_calls connects (Some client) = Some client)
  ∧ esClient_calls connects None = head (omap connected connects).
Proof.
  assert (∀ cs (client : C), esClient_calls cs (Some client) = Some client) as Hheld.
  { intros cs client. induction cs as [|c cs IH]; [done|]. exact IH. }
  split; [apply Hheld|].
  induction connects as [|connect connects IH]; [done|].
  unfold esClient_calls in *. cbn [fold_left]. rewrite esClient_state.
  change (omap connected (connect :: connects))
    with (match connected connect with
          | Some client => client :: omap connected connects
          | None => omap connected connects
          end).
  destruct (connected connect) as [client|]; [by rewrite Hheld | exact IH].
Qed.
